(** * Vote reconciliation and placeholder accounting of the poll bot

    A shallow embedding of the poll ledger (models/Poll), of the three
    event handlers of commands/pollCommands (the [poll] snapshot push, the
    [poll_answer] named vote, the [refreshpoll] command) and of the
    periodic refresh of utils/pollingService, followed by the properties
    of the reconciliation engine.

    Conventions.  JavaScript numbers that hold counts, ids and timestamps
    are integers [Z].  A field that may be missing or of the wrong type is
    an [option]: [None] stands for undefined/null (or, for a count, for a
    value whose [typeof] is not 'number').  The document store is a list
    of poll records in its natural order; [findOne] returns the first
    match, [save] replaces the record carrying the same [_id].  A string
    is a [string] of the Standard Library, one character for each code
    unit; it holds the code units below 256.  Queries
    and saves succeed: the handlers' [catch] branches, logging, replies to
    the chat and the timestamps the store sets by itself on a save are
    not part of the model. *)

From Stdlib Require Import ZArith String.
From stdpp Require Import base decidable option list numbers strings sorting gmap sets.

Open Scope string_scope.
Open Scope list_scope.
Open Scope Z_scope.

(** ** The ledger (models/Poll) *)

Record PollOption := mkOption {
  text : string;
  voterIds : list Z;
  existingVotes : Z
}.

Record Mention := mkMention {
  userId : option Z;
  username : option string;
  firstName : option string;
  lastName : option string;
  voted : bool
}.

Record Poll := mkPoll {
  _id : Z;
  pollId : option string;
  originalPollId : option string;
  chatId : Z;
  messageId : Z;
  options : list PollOption;
  mentions : list Mention;
  isMultipleChoice : bool;
  isClosed : bool;
  isTracked : bool;
  total_voter_count : option Z;
  updatedAt : Z
}.

(** The sender of a vote ([poll_answer.user]). *)
Record User := mkUser {
  user_id : Z;
  user_username : option string;
  first_name : option string;
  last_name : option string
}.

(** The platform's poll object: its id, its total and, per option, the
    [voter_count] ([None] where the entry is missing or not a number). *)
Record TelegramPoll := mkTelegramPoll {
  tg_id : string;
  tg_total_voter_count : option Z;
  tg_options : option (list (option Z))
}.

(** Field assignments. *)
Definition set_voterIds (v : list Z) (o : PollOption) : PollOption :=
  {| text := text o; voterIds := v; existingVotes := existingVotes o |}.

Definition set_existingVotes (n : Z) (o : PollOption) : PollOption :=
  {| text := text o; voterIds := voterIds o; existingVotes := n |}.

Definition set_options (os : list PollOption) (p : Poll) : Poll :=
  {| _id := _id p; pollId := pollId p; originalPollId := originalPollId p;
     chatId := chatId p; messageId := messageId p; options := os;
     mentions := mentions p; isMultipleChoice := isMultipleChoice p;
     isClosed := isClosed p; isTracked := isTracked p;
     total_voter_count := total_voter_count p; updatedAt := updatedAt p |}.

Definition set_mentions (ms : list Mention) (p : Poll) : Poll :=
  {| _id := _id p; pollId := pollId p; originalPollId := originalPollId p;
     chatId := chatId p; messageId := messageId p; options := options p;
     mentions := ms; isMultipleChoice := isMultipleChoice p;
     isClosed := isClosed p; isTracked := isTracked p;
     total_voter_count := total_voter_count p; updatedAt := updatedAt p |}.

Definition set_total_voter_count (t : option Z) (p : Poll) : Poll :=
  {| _id := _id p; pollId := pollId p; originalPollId := originalPollId p;
     chatId := chatId p; messageId := messageId p; options := options p;
     mentions := mentions p; isMultipleChoice := isMultipleChoice p;
     isClosed := isClosed p; isTracked := isTracked p;
     total_voter_count := t; updatedAt := updatedAt p |}.

Definition set_updatedAt (t : Z) (p : Poll) : Poll :=
  {| _id := _id p; pollId := pollId p; originalPollId := originalPollId p;
     chatId := chatId p; messageId := messageId p; options := options p;
     mentions := mentions p; isMultipleChoice := isMultipleChoice p;
     isClosed := isClosed p; isTracked := isTracked p;
     total_voter_count := total_voter_count p; updatedAt := t |}.

(** ** JavaScript helpers *)

(** [x || 0] on a number. *)
Definition or0 (x : Z) : Z := if decide (x = 0) then 0 else x.

(** [Array.prototype.sort(cmp)]: a stable sort; [x] is placed before the
    first element it does not compare greater than. *)
Fixpoint js_insert {A} (cmp : A → A → Z) (x : A) (l : list A) : list A :=
  match l with
  | [] => [x]
  | y :: l' => if decide (cmp x y ≤ 0) then x :: y :: l' else y :: js_insert cmp x l'
  end.

Definition js_sort {A} (cmp : A → A → Z) (l : list A) : list A :=
  foldr (js_insert cmp) [] l.

(** The order a comparator induces: [x] may stand before [y]. *)
Definition before {A} (cmp : A → A → Z) (x y : A) : Prop := cmp x y ≤ 0.

(** [Math.min(...l)] on a non-empty array [x :: l]. *)
Definition Math_min (x : Z) (l : list Z) : Z := foldl Z.min x l.

(** [String.prototype.trim], which a schema path declared with
    [trim: true] applies to the string assigned to it.  Among the code
    units below 256 the white space and the line terminators are TAB, LF,
    VT, FF, CR, SP and NBSP. *)
Definition isWhiteSpace (c : Ascii.ascii) : bool :=
  existsb (Ascii.eqb c) (Ascii.ascii_of_nat <$> [9; 10; 11; 12; 13; 32; 160]%nat).

Fixpoint trimStart (s : string) : string :=
  match s with
  | String c s' => if isWhiteSpace c then trimStart s' else s
  | EmptyString => EmptyString
  end.

Fixpoint trimEnd (s : string) : string :=
  match s with
  | String c s' =>
    match trimEnd s' with
    | EmptyString => if isWhiteSpace c then EmptyString else String c EmptyString
    | s'' => String c s''
    end
  | EmptyString => EmptyString
  end.

Definition js_trim (s : string) : string := trimEnd (trimStart s).

(** [Array.from({ length: n }, (_, idx) => start - idx)]. *)
Definition descending_from (start : Z) (n : Z) : list Z :=
  (λ idx, start - Z.of_nat idx) <$> seq 0 (Z.to_nat n).

(** ** The document store *)

Definition findOne (P : Poll → Prop) `{∀ p, Decision (P p)} (db : list Poll) : option Poll :=
  head (filter P db).

Definition save (p : Poll) (db : list Poll) : list Poll :=
  (λ q, if decide (_id q = _id p) then p else q) <$> db.

(** ** Aggregate observations *)

(** The loop [for (i = 0; i < observed.length && i < options.length; i++)]:
    [f] rewrites the option at index [i] from the observation at [i]. *)
Fixpoint reconcile (f : nat → option Z → PollOption → PollOption)
    (i : nat) (observed : list (option Z)) (opts : list PollOption) : list PollOption :=
  match observed, opts with
  | ob :: observed', o :: opts' => f i ob o :: reconcile f (S i) observed' opts'
  | _, _ => opts
  end.

Definition baseId (i : nat) : Z := -1000000 * (Z.of_nat i + 1).

(** The snapshot push ([bot.on('poll')]), body of the loop. *)
Definition pushOption (i : nat) (ob : option Z) (dbOption : PollOption) : PollOption :=
  match ob with
  | None => dbOption
  | Some newVoterCount =>
    let oldVoterCount := or0 (existingVotes dbOption) in
    if decide (newVoterCount > oldVoterCount) then
      let newVotes := newVoterCount - oldVoterCount in
      if decide (newVotes > 0) then
        let negativeIds := filter (λ id, id < 0) (voterIds dbOption) in
        let lastPlaceholderId :=
          match negativeIds with
          | [] => baseId i - 1
          | x :: r => Math_min x r - 1
          end in
        let newVoterIds := descending_from lastPlaceholderId newVotes in
        set_existingVotes newVoterCount
          (set_voterIds (voterIds dbOption ++ newVoterIds) dbOption)
      else dbOption
    else dbOption
  end.

(** The periodic refresh ([updateTrackedPolls]), body of the loop. *)
Definition scheduledOption (i : nat) (ob : option Z) (pollOption : PollOption) : PollOption :=
  match ob with
  | None => pollOption
  | Some newVoterCount =>
    let currentExistingVotes := or0 (existingVotes pollOption) in
    if decide (newVoterCount < 0 ∨ newVoterCount > 10000) then pollOption
    else if decide (newVoterCount > currentExistingVotes) then
      let newVotes := newVoterCount - currentExistingVotes in
      let negativeIds := filter (λ id, id < 0 ∧ id >= baseId i) (voterIds pollOption) in
      let lowestExistingId :=
        match negativeIds with
        | [] => baseId i - 1
        | x :: r => Math_min x r - 1
        end in
      let placeholderIds := descending_from lowestExistingId newVotes in
      set_existingVotes newVoterCount
        (set_voterIds (voterIds pollOption ++ placeholderIds) pollOption)
    else pollOption
  end.

(** The [refreshpoll] command, body of the loop. *)
Definition refreshOption (i : nat) (ob : option Z) (pollOption : PollOption) : PollOption :=
  match ob with
  | None => pollOption
  | Some newVoterCount =>
    let oldVoterCount := or0 (existingVotes pollOption) in
    if decide (newVoterCount ≠ oldVoterCount) then
      let voteDiff := newVoterCount - oldVoterCount in
      let pollOption' :=
        if decide (voteDiff > 0) then
          let negativeIds := filter (λ id, id < 0) (voterIds pollOption) in
          let lastPlaceholderId :=
            match negativeIds with
            | [] => baseId i - 1
            | x :: r => Math_min x r - 1
            end in
          let newVoterIds := descending_from lastPlaceholderId voteDiff in
          set_voterIds (voterIds pollOption ++ newVoterIds) pollOption
        else if decide (voteDiff < 0) then
          let placeholderIds :=
            js_sort (λ a b, a - b) (filter (λ id, id < 0) (voterIds pollOption)) in
          let idsToRemove := take (Z.to_nat (Z.abs voteDiff)) placeholderIds in
          set_voterIds (filter (λ id, id ∉ idsToRemove) (voterIds pollOption)) pollOption
        else pollOption in
      set_existingVotes newVoterCount pollOption'
    else pollOption
  end.

(** ** The snapshot push: [bot.on('poll')] *)

(** [Poll.findOne({ pollId })], then [Poll.findOne({ originalPollId })]. *)
Definition findByPollId (id : string) (db : list Poll) : option Poll :=
  match findOne (λ p, pollId p = Some id) db with
  | Some dbPoll => Some dbPoll
  | None => findOne (λ p, originalPollId p = Some id) db
  end.

(** The mutation of the record once it is found open. *)
Definition applySnapshot (poll : TelegramPoll) (dbPoll : Poll) : Poll :=
  let dbPoll1 := set_total_voter_count (tg_total_voter_count poll) dbPoll in
  if isTracked dbPoll1 then
    match tg_options poll with
    | Some observed =>
      set_options (reconcile pushOption 0 observed (options dbPoll1)) dbPoll1
    | None => dbPoll1
    end
  else dbPoll1.

Definition pollHandler (pollData : option TelegramPoll) (db : list Poll) : list Poll :=
  match pollData with
  | None => db
  | Some poll =>
    if decide (tg_id poll = "") then db
    else
      match findByPollId (tg_id poll) db with
      | None => db
      | Some dbPoll =>
        if isClosed dbPoll then db
        else save (applySnapshot poll dbPoll) db
      end
  end.

(** ** The named vote: [bot.on('poll_answer')] *)

Record PollAnswer := mkPollAnswer {
  poll_id : string;
  user : option User;
  option_ids : list Z
}.

(** The callback of [voterIds.filter] that drops the voter's id. *)
Definition keepVote (uid : Z) (id : Z) : bool :=
  if decide (id = uid) then false
  else if decide (id < 0) then true
  else true.

Definition clearVotes (uid : Z) (opts : list PollOption) : list PollOption :=
  (λ option, set_voterIds (filter (λ id, keepVote uid id) (voterIds option)) option) <$> opts.

(** One turn of [for (const optionIndex of option_ids)]. *)
Definition recordVote (multiple : bool) (uid : Z)
    (opts : list PollOption) (optionIndex : Z) : list PollOption :=
  if decide (optionIndex >= 0 ∧ optionIndex < Z.of_nat (length opts)) then
    let opts1 := if negb multiple then clearVotes uid opts else opts in
    let k := Z.to_nat optionIndex in
    match opts1 !! k with
    | None => opts1
    | Some option =>
      if decide (uid ∈ voterIds option) then opts1
      else
        let option1 := set_voterIds (voterIds option ++ [uid]) option in
        let realVoterCount :=
          Z.of_nat (length (filter (λ id, id > 0) (voterIds option1))) in
        let option2 :=
          if decide (existingVotes option1 < realVoterCount)
          then set_existingVotes realVoterCount option1
          else option1 in
        <[k := option2]> opts1
    end
  else opts.

(** The retraction branch: the callback of [poll.options.forEach]. *)
Definition retractVote (uid : Z) (option : PollOption) : PollOption :=
  let hadVote := bool_decide (uid ∈ voterIds option) in
  let option1 := set_voterIds (filter (λ id, keepVote uid id) (voterIds option)) option in
  if hadVote then
    let realVoterCount :=
      Z.of_nat (length (filter (λ id, id > 0) (voterIds option1))) in
    if decide (existingVotes option1 > realVoterCount)
    then set_existingVotes realVoterCount option1
    else option1
  else option1.

Definition recordVotes (multiple : bool) (uid : Z) (ids : list Z)
    (opts : list PollOption) : list PollOption :=
  if decide (Z.of_nat (length ids) > 0)
  then foldl (recordVote multiple uid) opts ids
  else retractVote uid <$> opts.

(** The mention roster. *)
Definition truthy (s : option string) : bool :=
  match s with
  | Some s' => bool_decide (s' ≠ "")
  | None => false
  end.

Definition mentionMatches (u : User) (mention : Mention) : bool :=
  bool_decide (userId mention = Some (user_id u))
  || (truthy (username mention) && bool_decide (username mention = user_username u)).

Definition noUserId (mention : Mention) : bool :=
  match userId mention with
  | None => true
  | Some n => bool_decide (n = 0)
  end.

(** [firstName] and [lastName] are declared with [trim: true]
    (MentionSchema): the names assigned to them are stored trimmed, a
    missing name stays missing. *)
Definition updateMentions (u : User) (ids : list Z) (ms : list Mention) : list Mention :=
  match list_find (λ mention, mentionMatches u mention) ms with
  | None => ms
  | Some (mentionIndex, mention) =>
    let mention1 :=
      if noUserId mention
      then {| userId := Some (user_id u); username := username mention;
              firstName := js_trim <$> first_name u;
              lastName := js_trim <$> last_name u;
              voted := voted mention |}
      else mention in
    <[mentionIndex :=
        {| userId := userId mention1; username := username mention1;
           firstName := firstName mention1; lastName := lastName mention1;
           voted := bool_decide (Z.of_nat (length ids) > 0) |}]> ms
  end.

(** The recount of [total_voter_count]. *)
Definition uniqueVoters (opts : list PollOption) : gset Z :=
  foldl (λ set option,
           foldl (λ set' id, if decide (id > 0) then set' ∪ {[ id ]} else set')
                 set (voterIds option))
        ∅ opts.

Definition placeholderVotes (opts : list PollOption) : Z :=
  foldl (λ sum option,
           sum + Z.of_nat (length (filter (λ id, id < 0) (voterIds option))))
        0 opts.

Definition newTotalVoterCount (opts : list PollOption) : Z :=
  Z.of_nat (size (uniqueVoters opts)) + placeholderVotes opts.

Definition recount (poll : Poll) : Poll :=
  if decide (total_voter_count poll ≠ Some (newTotalVoterCount (options poll)))
  then set_total_voter_count (Some (newTotalVoterCount (options poll))) poll
  else poll.

(** The mutation of the record once it is found open. *)
Definition castVote (now : Z) (u : User) (ids : list Z) (poll : Poll) : Poll :=
  let poll1 :=
    set_options (recordVotes (isMultipleChoice poll) (user_id u) ids (options poll)) poll in
  let poll2 := set_mentions (updateMentions u ids (mentions poll1)) poll1 in
  let poll3 := set_updatedAt now poll2 in
  recount poll3.

Section PollAnswerHandler.

(** The store's [$regex] operator, [regexTest pattern subject]; the
    handler hands it the first ten characters of the inbound id. *)
Variable regexTest : string → string → bool.

Definition fieldMatches (pattern : string) (field : option string) : bool :=
  match field with
  | Some s => regexTest pattern s
  | None => false
  end.

(** The open polls one of whose ids matches the prefix of [id]. *)
Definition prefixMatches (id : string) (db : list Poll) : list Poll :=
  filter (λ p, isClosed p = false
               ∧ (fieldMatches (substring 0 10 id) (pollId p)
                  ∨ fieldMatches (substring 0 10 id) (originalPollId p))) db.

(** The candidates of the partial match: the open polls one of whose ids
    matches the prefix or, when there is none, every open poll. *)
Definition findActivePolls (id : string) (db : list Poll) : list Poll :=
  let pollIdPrefix := substring 0 10 id in
  let allActivePolls :=
    filter (λ p, isClosed p = false
                 ∧ (fieldMatches pollIdPrefix (pollId p)
                    ∨ fieldMatches pollIdPrefix (originalPollId p))) db in
  if decide (length allActivePolls = 0%nat)
  then filter (λ p, isClosed p = false) db
  else allActivePolls.

Definition resolvePoll (id : string) (db : list Poll) : option Poll :=
  match findByPollId id db with
  | Some poll => Some poll
  | None =>
    let allActivePolls := findActivePolls id db in
    if decide (length allActivePolls = 1%nat) then head allActivePolls
    else if decide (1 < length allActivePolls)%nat
    then head (js_sort (λ a b, updatedAt b - updatedAt a) allActivePolls)
    else None
  end.

Definition pollAnswerHandler (now : Z) (pollAnswerData : option PollAnswer)
    (db : list Poll) : list Poll :=
  match pollAnswerData with
  | None => db
  | Some answer =>
    match user answer with
    | None => db
    | Some u =>
      if decide (poll_id answer = "") then db
      else
        match resolvePoll (poll_id answer) db with
        | None => db
        | Some poll =>
          if isClosed poll then db
          else save (castVote now u (option_ids answer) poll) db
        end
    end
  end.

End PollAnswerHandler.

(** [Poll.find({ isClosed: false })]. *)
Definition openPolls (db : list Poll) : list Poll :=
  filter (λ p, isClosed p = false) db.

(** The [$regex] operator on a pattern free of metacharacters and letters
    (the platform's poll ids are decimal numerals): the subject contains
    the pattern. *)
Fixpoint includes (pattern subject : string) : bool :=
  String.prefix pattern subject
  || match subject with
     | EmptyString => false
     | String _ rest => includes pattern rest
     end.

(** ** The [refreshpoll] command *)

Definition applyRefresh (now : Z) (telegramPoll : TelegramPoll) (poll : Poll) : Poll :=
  let poll1 :=
    set_total_voter_count
      (Some (or0 (default 0 (tg_total_voter_count telegramPoll)))) poll in
  let poll2 :=
    match tg_options telegramPoll with
    | Some observed =>
      set_options (reconcile refreshOption 0 observed (options poll1)) poll1
    | None => poll1
    end in
  set_updatedAt now poll2.

Definition refreshpoll (now : Z) (chat : Z) (message_id : Z)
    (telegramPoll : TelegramPoll) (db : list Poll) : list Poll :=
  match findOne (λ p, chatId p = chat ∧ messageId p = message_id) db with
  | None => db
  | Some poll =>
    if negb (isTracked poll) then db
    else save (applyRefresh now telegramPoll poll) db
  end.

(** ** The periodic refresh: [updateTrackedPolls] *)

Definition MAX_POLLS_TO_CHECK : nat := 50.

(** One poll of the batch against the snapshot fetched for it; [None]
    when the poll is left as it is and not saved.  Past the guard on the
    total, [hasChanges] is set by the assignment of the total, so the
    record is always saved. *)
Definition updateTrackedPoll (now : Z) (telegramPoll : TelegramPoll) (poll : Poll)
    : option Poll :=
  match tg_total_voter_count telegramPoll with
  | None => None
  | Some total =>
    if decide (Some total = total_voter_count poll) then None
    else
      let poll1 := set_total_voter_count (Some total) poll in
      let poll2 :=
        match tg_options telegramPoll with
        | Some observed =>
          set_options (reconcile scheduledOption 0 observed (options poll1)) poll1
        | None => poll1
        end in
      Some (set_updatedAt now poll2)
  end.

(** The record as the periodic refresh leaves it. *)
Definition afterTick (now : Z) (telegramPoll : TelegramPoll) (poll : Poll) : Poll :=
  default poll (updateTrackedPoll now telegramPoll poll).

(** A tick: the batch is the open tracked polls, least recently updated
    first; [fetch] is the outcome of the attempts to read a poll's
    message from the platform ([None] when they all fail or the message
    carries no poll). *)
Definition updateTrackedPolls (fetch : Poll → option TelegramPoll) (now : Z)
    (db : list Poll) : list Poll :=
  let trackedPolls :=
    take MAX_POLLS_TO_CHECK
      (js_sort (λ a b, updatedAt a - updatedAt b)
         (filter (λ p, isTracked p = true ∧ isClosed p = false) db)) in
  foldl (λ db' poll,
           match fetch poll with
           | None => db'
           | Some telegramPoll =>
             match updateTrackedPoll now telegramPoll poll with
             | None => db'
             | Some poll' => save poll' db'
             end
           end)
        db trackedPolls.

(** ** [PollSchema.methods.addVote] *)

Definition addVote (optionIndex : Z) (uid : Z) (this : Poll) : Poll * bool :=
  if isClosed this then (this, false)
  else if decide (optionIndex < 0 ∨ optionIndex >= Z.of_nat (length (options this)))
  then (this, false)
  else
    let opts1 :=
      if negb (isMultipleChoice this)
      then (λ option, set_voterIds (filter (λ id, id ≠ uid) (voterIds option)) option)
             <$> options this
      else options this in
    let k := Z.to_nat optionIndex in
    let opts2 :=
      match opts1 !! k with
      | Some option =>
        if decide (uid ∈ voterIds option) then opts1
        else <[k := set_voterIds (voterIds option ++ [uid]) option]> opts1
      | None => opts1
      end in
    let ms :=
      match list_find (λ mention, userId mention = Some uid) (mentions this) with
      | Some (mentionIndex, mention) =>
        <[mentionIndex :=
            {| userId := userId mention; username := username mention;
               firstName := firstName mention; lastName := lastName mention;
               voted := true |}]> (mentions this)
      | None => mentions this
      end in
    (set_mentions ms (set_options opts2 this), true).

(** ** Sample records *)

(** An open tracked poll whose option 0 holds three placeholders. *)
Definition tracked_poll_3 : Poll :=
  mkPoll 1 (Some "5890654314309812234") None (-100200) 7
    [mkOption "A" [-1000001; -1000002; -1000003] 3; mkOption "B" [] 0]
    [] false false true (Some 3) 10.

(** The same poll, closed. *)
Definition closed_poll_3 : Poll :=
  mkPoll 1 (Some "5890654314309812234") None (-100200) 7
    [mkOption "A" [-1000001; -1000002; -1000003] 3; mkOption "B" [] 0]
    [] false true true (Some 3) 10.

(** An open poll that is not tracked, with one named voter. *)
Definition untracked_poll : Poll :=
  mkPoll 2 (Some "5890654314309812777") None (-100200) 9
    [mkOption "A" [555] 1; mkOption "B" [] 0]
    [] false false false (Some 1) 10.

(** ** The allocator as the spec words it *)

(** The first id of a batch: [min(existing negatives) - 1], or [base - 1]
    when the option holds no negative id. *)
Definition batch_start (i : nat) (currentVoterIds : list Z) : Z :=
  match filter (λ id, id < 0) currentVoterIds with
  | [] => baseId i - 1
  | x :: r => Math_min x r - 1
  end.

(** A run of snapshot pushes seen by the option at index [i]. *)
Definition pushes (i : nat) (observations : list (option Z)) (o : PollOption) : PollOption :=
  foldl (λ o' ob, pushOption i ob o') o observations.

(** ** The total as the spec words it *)

(** The distinct positive ids across all options. *)
Definition distinct_positive_ids (opts : list PollOption) : list Z :=
  remove_dups (filter (λ id, id > 0) (concat (voterIds <$> opts))).

(** The number of negative ids of an option. *)
Definition negative_count (o : PollOption) : nat :=
  length (filter (λ id, id < 0) (voterIds o)).

Definition recompute (opts : list PollOption) : Z :=
  Z.of_nat (length (distinct_positive_ids opts))
  + Z.of_nat (sum_list_with negative_count opts).

(** Options A and B of the spec's scenario. *)
Definition options_A_B : list PollOption :=
  [mkOption "A" [10; 20; -1000001] 3; mkOption "B" [20; -2000001; -2000002] 3].

(** The number of positive ids (named voters) of a list of ids. *)
Definition realVoterCount (ids : list Z) : Z :=
  Z.of_nat (length (filter (λ id, id > 0) ids)).

(** An open single-choice poll: user 555 on option 0, next to two
    placeholders. *)
Definition poll_555 : Poll :=
  mkPoll 3 (Some "5890654314309812555") None (-100200) 11
    [mkOption "A" [555; -1000001; -1000002] 3; mkOption "B" [] 0]
    [mkMention (Some 555) (Some "ann") None None false]
    false false true (Some 3) 10.

Definition user_555 : User := mkUser 555 (Some "ann") (Some "Ann") None.

(** ** Runs of named votes *)

(** A named vote reaches a record through the [poll_answer] handler or
    through the model's [addVote]. *)
Inductive NamedVote :=
| Answer (now : Z) (u : User) (ids : list Z)
| AddVote (optionIndex : Z) (uid : Z).

Definition applyVote (p : Poll) (e : NamedVote) : Poll :=
  match e with
  | Answer now u ids => if isClosed p then p else castVote now u ids p
  | AddVote optionIndex uid => (addVote optionIndex uid p).1
  end.

Definition applyVotes (p : Poll) (es : list NamedVote) : Poll := foldl applyVote p es.

(** A list of ids holds no positive id twice. *)
Definition distinct_positive (ids : list Z) : Prop :=
  NoDup (filter (λ id, id > 0) ids).

(** No option holds a positive id twice. *)
Definition NoDuplicateVoter (opts : list PollOption) : Prop :=
  Forall (λ o, distinct_positive (voterIds o)) opts.

(** A run in which user 555 votes twice for option 1 and user 777 is
    added twice to option 0. *)
Definition repeated_votes : list NamedVote :=
  [Answer 20 user_555 [1]; Answer 21 user_555 [1]; AddVote 0 777; AddVote 0 777].

(** ** Mentions of the poll message: [extractMentions] *)

(** A message entity: its type, the span it covers in the text and, for a
    text mention, the user it names. *)
Record MessageEntity := mkEntity {
  entity_type : string;
  entity_offset : Z;
  entity_length : Z;
  entity_user : option User
}.

(** [s.substring(a, b)] on integers: both bounds are clamped to the
    string and swapped when out of order. *)
Definition js_substring (s : string) (a b : Z) : string :=
  let len := Z.of_nat (String.length s) in
  let a' := Z.max 0 (Z.min a len) in
  let b' := Z.max 0 (Z.min b len) in
  let lo := Z.min a' b' in
  let hi := Z.max a' b' in
  substring (Z.to_nat lo) (Z.to_nat (hi - lo)) s.

(** [s || null] on a string that may be missing. *)
Definition orNull (s : option string) : option string :=
  if truthy s then s else None.

(** The callback of [entities.forEach]: the mentions one entity adds. *)
Definition extractMention (text : string) (fromId : Z) (entity : MessageEntity)
    : list Mention :=
  if decide (entity_type entity = "mention") then
    [ {| userId := None;
         username :=
           Some (js_substring text (entity_offset entity + 1)
                   (entity_offset entity + entity_length entity));
         firstName := None; lastName := None; voted := false |} ]
  else if decide (entity_type entity = "text_mention") then
    match entity_user entity with
    | Some u =>
      [ {| userId := Some (user_id u);
           username := orNull (user_username u);
           firstName := orNull (first_name u);
           lastName := orNull (last_name u);
           voted := bool_decide (user_id u = fromId) |} ]
    | None => []
    end
  else [].

Definition extractMentions (entities : option (list MessageEntity))
    (text : string) (fromId : Z) : list Mention :=
  match entities with
  | None => []
  | Some es => es ≫= extractMention text fromId
  end.

(** ** The other methods of the poll model *)

Definition allMentionsVoted (this : Poll) : bool :=
  if decide (length (mentions this) = 0%nat) then true
  else forallb voted (mentions this).

Definition getPendingMentions (this : Poll) : list Mention :=
  filter (λ mention, negb (voted mention)) (mentions this).

Definition close (this : Poll) : Poll :=
  {| _id := _id this; pollId := pollId this; originalPollId := originalPollId this;
     chatId := chatId this; messageId := messageId this; options := options this;
     mentions := mentions this; isMultipleChoice := isMultipleChoice this;
     isClosed := true; isTracked := isTracked this;
     total_voter_count := total_voter_count this; updatedAt := updatedAt this |}.

(** ** [forceUpdatePoll] *)

(** [connected] is the state of the database connection, [getUpdates]
    whether the call to the platform succeeds; the result is [None] for
    [null] and otherwise the [updated] flag of the returned object. *)
Definition forceUpdatePoll (connected getUpdates : bool) (now : Z) (id : Z)
    (db : list Poll) : list Poll * option bool :=
  if negb connected then (db, None)
  else
    match findOne (λ p, _id p = id) db with
    | None => (db, None)
    | Some poll =>
      if getUpdates
      then (save (set_updatedAt now poll) db, Some true)
      else (db, Some false)
    end.

(** ** The timer of the polling service *)

(** The timers of the runtime ([intervals], the handles [setInterval] has
    returned and [clearInterval] has not cleared; [timeouts], the one-shot
    timers set; [fresh], the next handle) and the module's
    [pollingInterval]. *)
Record Service := mkService {
  intervals : gset nat;
  timeouts : nat;
  fresh : nat;
  pollingInterval : option nat
}.

Definition clearInterval (h : nat) (s : Service) : Service :=
  {| intervals := intervals s ∖ {[ h ]}; timeouts := timeouts s;
     fresh := fresh s; pollingInterval := pollingInterval s |}.

Definition setupPollingService (s : Service) : Service :=
  let s1 :=
    match pollingInterval s with
    | Some h => clearInterval h s
    | None => s
    end in
  {| intervals := intervals s1 ∪ {[ fresh s1 ]};
     timeouts := S (timeouts s1);
     fresh := S (fresh s1);
     pollingInterval := Some (fresh s1) |}.

Definition stopPollingService (s : Service) : Service :=
  match pollingInterval s with
  | Some h =>
    {| intervals := intervals s ∖ {[ h ]}; timeouts := timeouts s;
       fresh := fresh s; pollingInterval := None |}
  | None => s
  end.

Inductive ServiceCall := Setup | Stop.

Definition call (s : Service) (c : ServiceCall) : Service :=
  match c with
  | Setup => setupPollingService s
  | Stop => stopPollingService s
  end.

(** The service when the module is loaded. *)
Definition service0 : Service :=
  {| intervals := ∅; timeouts := 0; fresh := 0; pollingInterval := None |}.

(** ** Notions used by the properties *)

(** The batch of a tick of the periodic refresh. *)
Definition trackedBatch (db : list Poll) : list Poll :=
  take MAX_POLLS_TO_CHECK
    (js_sort (λ a b, updatedAt a - updatedAt b)
       (filter (λ p, isTracked p = true ∧ isClosed p = false) db)).

(** A run of snapshot pushes on a record. *)
Definition applySnapshots (p : Poll) (tps : list TelegramPoll) : Poll :=
  foldl (λ q tp, applySnapshot tp q) p tps.

(** Two records agree on everything a handler never writes: the ids, the
    hosting message, the flags and the texts of the options. *)
Definition sameIdentity (p q : Poll) : Prop :=
  _id p = _id q ∧ pollId p = pollId q ∧ originalPollId p = originalPollId q
  ∧ chatId p = chatId q ∧ messageId p = messageId q
  ∧ isMultipleChoice p = isMultipleChoice q
  ∧ isClosed p = isClosed q ∧ isTracked p = isTracked q
  ∧ text <$> options p = text <$> options q.

(** An option holds as many ids as [existingVotes] says and no negative
    id twice. *)
Definition counted (o : PollOption) : Prop :=
  existingVotes o = Z.of_nat (length (voterIds o))
  ∧ NoDup (filter (λ id, id < 0) (voterIds o)).

(** The voter stands on some option. *)
Definition hasVoted (uid : Z) (opts : list PollOption) : Prop :=
  Exists (λ o, uid ∈ voterIds o) opts.

(** Two options that differ at most by the voter's own id. *)
Definition sameOthers (uid : Z) (o o' : PollOption) : Prop :=
  text o' = text o
  ∧ filter (λ id, id ≠ uid) (voterIds o') = filter (λ id, id ≠ uid) (voterIds o).

(** An index the loop of the named vote skips. *)
Definition outOfRange (opts : list PollOption) (optionIndex : Z) : Prop :=
  ¬ (optionIndex >= 0 ∧ optionIndex < Z.of_nat (length opts)).

(** The last selected index the loop of the named vote does not skip. *)
Definition lastInRange (opts : list PollOption) (ids : list Z) : option Z :=
  last (filter (λ optionIndex, optionIndex >= 0 ∧ optionIndex < Z.of_nat (length opts)) ids).

(** A multiple-choice poll with three options. *)
Definition multi_poll : Poll :=
  mkPoll 4 (Some "5890654314309812888") None (-100200) 13
    [mkOption "A" [555; -1000001] 2; mkOption "B" [777] 1; mkOption "C" [] 0]
    [mkMention None (Some "ann") None None false;
     mkMention (Some 777) (Some "bob") None None true]
    true false true (Some 3) 10.

Definition isSetup (c : ServiceCall) : bool :=
  match c with
  | Setup => true
  | Stop => false
  end.

(** A string of white space only. *)
Fixpoint blank (s : string) : bool :=
  match s with
  | String c s' => isWhiteSpace c && blank s'
  | EmptyString => true
  end.

(** * Properties *)

(** ** Helpers on the JavaScript primitives *)

Lemma or0_id (x : Z) : or0 x = x.
Proof. unfold or0. case_decide; congruence. Qed.

Lemma keepVote_spec (uid id : Z) : keepVote uid id ↔ id ≠ uid.
Proof. unfold keepVote. repeat case_decide; naive_solver. Qed.

Lemma filter_keepVote (uid : Z) (l : list Z) :
  filter (λ id, keepVote uid id) l = filter (λ id, id ≠ uid) l.
Proof. apply list_filter_iff. intros id. apply keepVote_spec. Qed.

(** [js_trim] cuts white space, and nothing else, at both ends: what it
    returns stands in the string between two blank strings and neither
    starts nor ends with white space. *)
Lemma trimStart_spec (s : string) :
  ∃ pre, s = String.append pre (trimStart s) ∧ blank pre = true
         ∧ ∀ c t, trimStart s = String c t → isWhiteSpace c = false.
Proof.
  induction s as [|c s (pre & Heq & Hpre & Hstart)]; simpl.
  - exists "". by split_and!.
  - destruct (isWhiteSpace c) eqn:Hc.
    + exists (String c pre). split_and!; [|by simpl; rewrite Hc, Hpre|done].
      change (String c s = String c (String.append pre (trimStart s))). by rewrite <- Heq.
    + exists "". split_and!; [done..|]. by intros c' t [= <- _].
Qed.

Lemma append_snoc_inv (t : string) (c c0 : Ascii.ascii) (r : string) :
  String c r = String.append t (String c0 "") →
  (t = "" ∧ c = c0 ∧ r = "") ∨ ∃ t', t = String c t' ∧ r = String.append t' (String c0 "").
Proof.
  destruct t as [|c' t']; intros [= -> ->]; [by left|right; by eexists].
Qed.

Lemma trimEnd_spec (s : string) :
  ∃ post, s = String.append (trimEnd s) post ∧ blank post = true
          ∧ ∀ t c, trimEnd s = String.append t (String c "") → isWhiteSpace c = false.
Proof.
  induction s as [|c s (post & Heq & Hpost & Hend)]; simpl.
  - exists "". split_and!; [done..|]. by intros [|??] ?.
  - destruct (trimEnd s) as [|d r] eqn:Hs.
    + change (s = post) in Heq. subst post. destruct (isWhiteSpace c) eqn:Hc.
      * exists (String c s). split_and!; [done|by simpl; rewrite Hc, Hpost|].
        by intros [|??] ?.
      * exists s. split_and!; [done..|]. intros t c0 Ht.
        apply append_snoc_inv in Ht as [(_ & <- & _)|(t' & _ & Ht')]; [done|].
        by destruct t'.
    + exists post. split_and!; [|done|].
      * change (String c s = String c (String.append (String d r) post)). by rewrite <- Heq.
      * intros t c0 Ht.
        apply append_snoc_inv in Ht as [(_ & _ & ?)|(t' & _ & Ht')]; [done|].
        by apply (Hend t' c0).
Qed.

Lemma js_trim_spec (s : string) :
  ∃ pre post,
    s = String.append pre (String.append (js_trim s) post)
    ∧ blank pre = true ∧ blank post = true
    ∧ (∀ c t, js_trim s = String c t → isWhiteSpace c = false)
    ∧ (∀ t c, js_trim s = String.append t (String c "") → isWhiteSpace c = false).
Proof.
  unfold js_trim.
  destruct (trimStart_spec s) as (pre & Hs & Hpre & Hstart).
  destruct (trimEnd_spec (trimStart s)) as (post & Ht & Hpost & Hend).
  exists pre, post. split_and!; try done.
  - by rewrite <- Ht.
  - intros c t Hc. apply (Hstart c (String.append t post)). by rewrite Ht, Hc.
Qed.

Section JsSort.
Context {A : Type} (cmp : A → A → Z).

Lemma js_insert_perm (x : A) (l : list A) : js_insert cmp x l ≡ₚ x :: l.
Proof.
  induction l as [|y l IH]; simpl; [done|].
  case_decide; [done|]. rewrite IH. apply Permutation_swap.
Qed.

Lemma js_sort_perm (l : list A) : js_sort cmp l ≡ₚ l.
Proof.
  induction l as [|x l IH]; simpl; [done|].
  rewrite js_insert_perm. by rewrite IH.
Qed.

Lemma js_sort_length (l : list A) : length (js_sort cmp l) = length l.
Proof. by rewrite js_sort_perm. Qed.

Lemma js_sort_elem_of (x : A) (l : list A) : x ∈ js_sort cmp l ↔ x ∈ l.
Proof. by rewrite js_sort_perm. Qed.

Hypothesis before_trans : ∀ x y z, before cmp x y → before cmp y z → before cmp x z.
Hypothesis before_total : ∀ x y, before cmp x y ∨ before cmp y x.

Lemma js_insert_sorted (x : A) (l : list A) :
  StronglySorted (before cmp) l → StronglySorted (before cmp) (js_insert cmp x l).
Proof.
  induction 1 as [|y l Hl IH Hy]; simpl.
  - repeat constructor.
  - case_decide as Hxy.
    + constructor; [by constructor|].
      constructor; [done|].
      eapply Forall_impl; [exact Hy|]. intros z Hz. by eapply before_trans.
    + constructor; [done|].
      rewrite js_insert_perm. constructor; [|done].
      destruct (before_total x y); [done|done].
Qed.

Lemma js_sort_sorted (l : list A) : StronglySorted (before cmp) (js_sort cmp l).
Proof.
  induction l as [|x l IH]; simpl; [constructor|].
  by apply js_insert_sorted.
Qed.

(** The first element of the sorted array may stand before every element. *)
Lemma js_sort_head (l : list A) (x : A) :
  head (js_sort cmp l) = Some x → x ∈ l ∧ ∀ y, y ∈ l → before cmp x y.
Proof.
  intros Hhd. apply head_Some in Hhd as [l' Hl'].
  pose proof (js_sort_sorted l) as Hs. rewrite Hl' in Hs.
  apply StronglySorted_cons in Hs as [Hall _].
  split.
  - apply js_sort_elem_of. rewrite Hl'. by left.
  - intros y Hy. apply js_sort_elem_of in Hy. rewrite Hl' in Hy.
    apply elem_of_cons in Hy as [Heq|Hy].
    + subst y. destruct (before_total x x); done.
    + by eapply Forall_forall in Hall.
Qed.
End JsSort.

Lemma StronglySorted_weaken {A} (R1 R2 : relation A) (l : list A) :
  (∀ x y, R1 x y → R2 x y) → StronglySorted R1 l → StronglySorted R2 l.
Proof.
  intros HR. induction 1 as [|x l Hl IH Hx]; constructor; [done|].
  eapply Forall_impl; [exact Hx|]. intros y. apply HR.
Qed.

Lemma ascending_sorted (l : list Z) :
  StronglySorted Z.le (js_sort (λ a b, a - b) l).
Proof.
  apply (StronglySorted_weaken (before (λ a b : Z, a - b))).
  - unfold before. intros x y. lia.
  - apply js_sort_sorted; unfold before; intros; lia.
Qed.

(** ** The loop over the observed options *)

Lemma reconcile_length f (i : nat) (observed : list (option Z)) (opts : list PollOption) :
  length (reconcile f i observed opts) = length opts.
Proof.
  revert i opts. induction observed as [|ob observed IH]; intros i [|o opts]; simpl; auto.
Qed.

Lemma reconcile_lookup f (i j : nat) (observed : list (option Z)) (opts : list PollOption) :
  reconcile f i observed opts !! j =
    match observed !! j, opts !! j with
    | Some ob, Some o => Some (f (i + j)%nat ob o)
    | _, r => r
    end.
Proof.
  revert i j opts.
  induction observed as [|ob observed IH]; intros i j [|o opts]; simpl.
  - done.
  - by destruct j.
  - destruct j as [|j]; [done|]. simpl. by destruct (observed !! j).
  - destruct j as [|j]; simpl.
    + by rewrite Nat.add_0_r.
    + rewrite IH. by rewrite Nat.add_succ_r.
Qed.

(** ** The decrease branch of the [refreshpoll] command *)

Lemma filter_elem_of_length (S l : list Z) :
  NoDup l → NoDup S → (∀ x, x ∈ S → x ∈ l) →
  length (filter (λ id, id ∈ S) l) = length S.
Proof.
  intros Hl HS Hsub. apply Permutation_length.
  apply NoDup_Permutation; [by apply NoDup_filter|done|].
  intros x. rewrite list_elem_of_filter. split; [tauto|auto].
Qed.

Lemma filter_complement_length (P : Z → Prop) `{!∀ x, Decision (P x)} (l : list Z) :
  (length (filter (λ x, ¬ P x) l) + length (filter P l) = length l)%nat.
Proof.
  pose proof (Permutation_length (filter_app_complement P l)) as Hlen.
  rewrite length_app in Hlen. lia.
Qed.

Lemma take_elem_of {A} (x : A) (n : nat) (l : list A) : x ∈ take n l → x ∈ l.
Proof. intros Hx. rewrite <- (take_drop n l). apply elem_of_app. by left. Qed.

Lemma take_NoDup {A} (n : nat) (l : list A) : NoDup l → NoDup (take n l).
Proof.
  intros Hl. rewrite <- (take_drop n l) in Hl. by apply NoDup_app in Hl as (? & _).
Qed.

Lemma sorted_take_below (srt : list Z) (d : nat) (x y : Z) :
  StronglySorted Z.le srt → NoDup srt →
  x ∈ take d srt → y ∈ srt → y ∉ take d srt → x < y.
Proof.
  intros Hs Hnd Hx Hy Hny.
  rewrite <- (take_drop d srt) in Hs, Hnd, Hy.
  apply elem_of_app in Hy as [Hy|Hy]; [done|].
  pose proof (StronglySorted_app_1_elem_of _ _ _ _ _ Hs Hx Hy) as Hle.
  apply NoDup_app in Hnd as (_ & Hdisj & _).
  specialize (Hdisj x Hx).
  assert (x ≠ y) by (intros ->; done). lia.
Qed.

(** What the decrease branch computes. *)
Lemma refreshOption_decrease (i : nat) (n : Z) (o : PollOption) :
  n < existingVotes o →
  refreshOption i (Some n) o =
    set_existingVotes n
      (set_voterIds
         (filter (λ id, id ∉ take (Z.to_nat (existingVotes o - n))
                               (js_sort (λ a b, a - b)
                                  (filter (λ id, id < 0) (voterIds o))))
                 (voterIds o)) o).
Proof.
  intros Hlt. unfold refreshOption. rewrite or0_id.
  case_decide; [|exfalso; lia].
  case_decide; [exfalso; lia|]. case_decide; [|exfalso; lia].
  replace (Z.abs (n - existingVotes o)) with (existingVotes o - n) by lia.
  done.
Qed.

(** The decrease branch on one option. *)
Lemma refreshOption_removes_lowest (i : nat) (n : Z) (o : PollOption) :
  n < existingVotes o →
  NoDup (filter (λ id, id < 0) (voterIds o)) →
  existingVotes o - n ≤ Z.of_nat (length (filter (λ id, id < 0) (voterIds o))) →
  let o' := refreshOption i (Some n) o in
  existingVotes o' = n
  ∧ Z.of_nat (length (voterIds o')) = Z.of_nat (length (voterIds o)) - (existingVotes o - n)
  ∧ voterIds o' `sublist_of` voterIds o
  ∧ filter (λ id, 0 ≤ id) (voterIds o') = filter (λ id, 0 ≤ id) (voterIds o)
  ∧ ∀ x, x ∈ voterIds o → x ∉ voterIds o' →
      x < 0 ∧ ∀ y, y ∈ voterIds o' → y < 0 → x < y.
Proof.
  intros Hlt Hnd Hlen o'. subst o'. rewrite refreshOption_decrease by done.
  simpl.
  set (negs := filter (λ id, id < 0) (voterIds o)) in *.
  set (srt := js_sort (λ a b, a - b) negs).
  set (d := Z.to_nat (existingVotes o - n)) in *.
  assert (Hperm : srt ≡ₚ negs) by apply js_sort_perm.
  assert (Hsrt_nd : NoDup srt) by (by rewrite Hperm).
  assert (Hsorted : StronglySorted Z.le srt) by apply ascending_sorted.
  assert (Hneg : ∀ x, x ∈ take d srt → x < 0 ∧ x ∈ voterIds o).
  { intros x Hx. apply take_elem_of in Hx. rewrite Hperm in Hx.
    by apply list_elem_of_filter in Hx. }
  split_and!.
  - done.
  - pose proof (filter_complement_length (λ id, id ∈ take d srt) (voterIds o)) as Hc.
    assert (length (filter (λ id, id ∈ take d srt) (voterIds o)) = d) as Hd.
    { transitivity (length (filter (λ id, id ∈ take d srt) negs)).
      - unfold negs. rewrite list_filter_filter. f_equal.
        apply list_filter_iff. intros x. split; [|tauto].
        intros Hx. split; [done|]. by apply Hneg.
      - rewrite filter_elem_of_length.
        + rewrite length_take, (Permutation_length Hperm). lia.
        + done.
        + by apply take_NoDup.
        + intros x Hx. apply take_elem_of in Hx. by rewrite Hperm in Hx. }
    lia.
  - apply sublist_filter.
  - rewrite list_filter_filter. apply list_filter_iff. intros x.
    split; [tauto|]. intros Hx. split; [done|].
    intros Hin. apply Hneg in Hin. lia.
  - intros x Hx Hnx.
    assert (x ∈ take d srt) as Hxt.
    { destruct (decide (x ∈ take d srt)) as [|Hn]; [done|].
      exfalso. apply Hnx. by apply list_elem_of_filter. }
    split; [by apply Hneg|].
    intros y Hy Hyneg. apply list_elem_of_filter in Hy as [Hyt Hyin].
    eapply (sorted_take_below srt d); try done.
    rewrite Hperm. by apply list_elem_of_filter.
Qed.

Lemma applyRefresh_option (now : Z) (tp : TelegramPoll) (p : Poll) (j : nat) :
  options (applyRefresh now tp p) !! j =
    match tg_options tp with
    | Some observed => reconcile refreshOption 0 observed (options p) !! j
    | None => options p !! j
    end.
Proof. unfold applyRefresh. by destruct (tg_options tp). Qed.

(** C1 (as amended).  When the observation handed to the [refreshpoll]
    command lowers the count of the option at index [j] by [d] below its
    [existingVotes], and the option holds at least [d] placeholder ids,
    all distinct, the record the command saves has, at [j], an option from
    which exactly [d] ids are gone, every one of them a placeholder and
    every one of them below each placeholder that stays (the ids farthest
    from zero go, the most recently allocated ones); the ids that are not
    negative all stay, what stays keeps its order, and [existingVotes] is
    the observed count. *)
Theorem refresh_decrease_removes_lowest
    (now : Z) (tp : TelegramPoll) (p : Poll)
    (observed : list (option Z)) (j : nat) (n : Z) (o : PollOption) :
  tg_options tp = Some observed →
  observed !! j = Some (Some n) →
  options p !! j = Some o →
  n < existingVotes o →
  NoDup (filter (λ id, id < 0) (voterIds o)) →
  existingVotes o - n ≤ Z.of_nat (length (filter (λ id, id < 0) (voterIds o))) →
  ∃ o', options (applyRefresh now tp p) !! j = Some o'
    ∧ existingVotes o' = n
    ∧ Z.of_nat (length (voterIds o')) = Z.of_nat (length (voterIds o)) - (existingVotes o - n)
    ∧ voterIds o' `sublist_of` voterIds o
    ∧ filter (λ id, 0 ≤ id) (voterIds o') = filter (λ id, 0 ≤ id) (voterIds o)
    ∧ ∀ x, x ∈ voterIds o → x ∉ voterIds o' →
        x < 0 ∧ ∀ y, y ∈ voterIds o' → y < 0 → x < y.
Proof.
  intros Hobs Hj Ho Hlt Hnd Hlen.
  exists (refreshOption j (Some n) o). split.
  - by rewrite applyRefresh_option, Hobs, reconcile_lookup, Hj, Ho.
  - by apply refreshOption_removes_lowest.
Qed.

(** The scenario of the spec: the command keeps [-1000001], the id closest
    to zero, and removes [-1000003] and [-1000002]. *)
Lemma refresh_decrease_witness :
  let tp := mkTelegramPoll "5890654314309812234" (Some 1) (Some [Some 1; Some 0]) in
  let o := mkOption "A" [-1000001; -1000002; -1000003] 3 in
  ∃ o', options (applyRefresh 20 tp tracked_poll_3) !! 0%nat = Some o'
    ∧ existingVotes o' = 1
    ∧ Z.of_nat (length (voterIds o')) = Z.of_nat (length (voterIds o)) - (existingVotes o - 1)
    ∧ voterIds o' `sublist_of` voterIds o
    ∧ filter (λ id, 0 ≤ id) (voterIds o') = filter (λ id, 0 ≤ id) (voterIds o)
    ∧ ∀ x, x ∈ voterIds o → x ∉ voterIds o' →
        x < 0 ∧ ∀ y, y ∈ voterIds o' → y < 0 → x < y.
Proof.
  apply (refresh_decrease_removes_lowest 20
           (mkTelegramPoll "5890654314309812234" (Some 1) (Some [Some 1; Some 0]))
           tracked_poll_3 [Some 1; Some 0] 0 1
           (mkOption "A" [-1000001; -1000002; -1000003] 3)).
  - reflexivity.
  - reflexivity.
  - reflexivity.
  - simpl. lia.
  - apply (bool_decide_unpack _). by vm_compute.
  - simpl. lia.
Defined.

(** C1 as stated fails: on the spec's own scenario the command removes
    [-1000003] and [-1000002] and keeps [-1000001]; the two ids closest to
    zero are not the ones removed. *)
Lemma refresh_decrease_not_closest_to_zero :
  let tp := mkTelegramPoll "5890654314309812234" (Some 1) (Some [Some 1; Some 0]) in
  (options <$> refreshpoll 20 (-100200) 7 tp [tracked_poll_3])
    = [[mkOption "A" [-1000001] 1; mkOption "B" [] 0]]
  ∧ ¬ (∀ o', options (applyRefresh 20 tp tracked_poll_3) !! 0%nat = Some o' →
             ((-1000001) ∉ voterIds o') ∧ ((-1000002) ∉ voterIds o')
             ∧ (-1000003) ∈ voterIds o').
Proof.
  split; [reflexivity|].
  intros H. destruct (H _ eq_refl) as (H1 & _ & _). apply H1. simpl. left.
Qed.

(** ** Decreases on the push and on the periodic refresh *)

Lemma pushOption_not_above (i : nat) (n : Z) (o : PollOption) :
  n ≤ existingVotes o → pushOption i (Some n) o = o.
Proof.
  intros Hle. unfold pushOption. rewrite or0_id. case_decide; [exfalso; lia|done].
Qed.

Lemma scheduledOption_not_above (i : nat) (n : Z) (o : PollOption) :
  n ≤ existingVotes o → scheduledOption i (Some n) o = o.
Proof.
  intros Hle. unfold scheduledOption. rewrite or0_id.
  case_decide; [done|]. case_decide; [exfalso; lia|done].
Qed.

Lemma applySnapshot_option (tp : TelegramPoll) (p : Poll) (j : nat) :
  options (applySnapshot tp p) !! j =
    if isTracked p then
      match tg_options tp with
      | Some observed => reconcile pushOption 0 observed (options p) !! j
      | None => options p !! j
      end
    else options p !! j.
Proof.
  unfold applySnapshot. simpl. destruct (isTracked p); [|done].
  by destruct (tg_options tp).
Qed.

(** C3 (as amended).  On the snapshot push and on the periodic refresh an
    option whose observed count does not exceed its [existingVotes] is
    left exactly as it was: no placeholder id is removed and
    [existingVotes] keeps its value.  Only increases are reconciled on
    these two paths. *)
Theorem aggregate_decrease_is_ignored
    (now : Z) (tp : TelegramPoll) (p : Poll)
    (observed : list (option Z)) (j : nat) (n : Z) (o : PollOption) :
  tg_options tp = Some observed →
  observed !! j = Some (Some n) →
  options p !! j = Some o →
  n ≤ existingVotes o →
  options (applySnapshot tp p) !! j = Some o
  ∧ options (afterTick now tp p) !! j = Some o.
Proof.
  intros Hobs Hj Ho Hle. split.
  - rewrite applySnapshot_option, Hobs. destruct (isTracked p); [|done].
    rewrite reconcile_lookup, Hj, Ho. by rewrite pushOption_not_above.
  - unfold afterTick, updateTrackedPoll.
    destruct (tg_total_voter_count tp) as [total|]; [|done].
    case_decide; [done|]. rewrite Hobs. simpl.
    rewrite reconcile_lookup, Hj, Ho. by rewrite scheduledOption_not_above.
Qed.

Lemma aggregate_decrease_is_ignored_witness :
  let tp := mkTelegramPoll "5890654314309812234" (Some 1) (Some [Some 1; Some 0]) in
  options (applySnapshot tp tracked_poll_3) !! 0%nat
    = Some (mkOption "A" [-1000001; -1000002; -1000003] 3)
  ∧ options (afterTick 20 tp tracked_poll_3) !! 0%nat
    = Some (mkOption "A" [-1000001; -1000002; -1000003] 3).
Proof.
  apply (aggregate_decrease_is_ignored 20
           (mkTelegramPoll "5890654314309812234" (Some 1) (Some [Some 1; Some 0]))
           tracked_poll_3 [Some 1; Some 0] 0 1).
  - reflexivity.
  - reflexivity.
  - reflexivity.
  - simpl. lia.
Defined.

(** C3 as stated fails: an open tracked poll whose option 0 holds three
    placeholders is observed at [voter_count = 1]; after the push handler
    and after a tick of the periodic refresh the stored option still holds
    the three placeholders and [existingVotes = 3]. *)
Lemma aggregate_decrease_not_reconciled :
  let tp := mkTelegramPoll "5890654314309812234" (Some 1) (Some [Some 1; Some 0]) in
  (options <$> pollHandler (Some tp) [tracked_poll_3])
    = [[mkOption "A" [-1000001; -1000002; -1000003] 3; mkOption "B" [] 0]]
  ∧ (options <$> updateTrackedPolls (λ _, Some tp) 20 [tracked_poll_3])
    = [[mkOption "A" [-1000001; -1000002; -1000003] 3; mkOption "B" [] 0]].
Proof. split; reflexivity. Qed.

(** ** The store *)

Lemma findOne_Some (P : Poll → Prop) `{!∀ p, Decision (P p)} (db : list Poll) (p : Poll) :
  findOne P db = Some p → p ∈ db ∧ P p.
Proof.
  unfold findOne. intros Hhd. apply head_Some_elem_of in Hhd.
  apply list_elem_of_filter in Hhd. tauto.
Qed.

Lemma findByPollId_elem_of (id : string) (db : list Poll) (p : Poll) :
  findByPollId id db = Some p → p ∈ db.
Proof.
  unfold findByPollId.
  destruct (findOne (λ p, pollId p = Some id) db) as [q|] eqn:Hq.
  - intros [= <-]. by apply findOne_Some in Hq as [? _].
  - intros Hp. by apply findOne_Some in Hp as [? _].
Qed.

Lemma save_elem_of (p p' : Poll) (db : list Poll) :
  p ∈ db → _id p' = _id p → p' ∈ save p' db.
Proof.
  intros Hin Hid. unfold save. apply list_elem_of_fmap. exists p.
  split; [|done]. case_decide; [done|congruence].
Qed.

Lemma save_lookup_ne (p q' : Poll) (db : list Poll) (k : nat) :
  db !! k = Some p → _id p ≠ _id q' → save q' db !! k = Some p.
Proof.
  intros Hk Hne. unfold save. rewrite list_lookup_fmap, Hk. simpl.
  by case_decide.
Qed.

Lemma unique_id (db : list Poll) (p q : Poll) :
  NoDup (_id <$> db) → p ∈ db → q ∈ db → _id p = _id q → p = q.
Proof.
  intros Hnd Hp Hq Hid.
  apply list_elem_of_lookup in Hp as [i Hi]. apply list_elem_of_lookup in Hq as [j Hj].
  assert (i = j) as ->.
  { eapply NoDup_lookup; [exact Hnd| |].
    - rewrite list_lookup_fmap, Hi. reflexivity.
    - rewrite list_lookup_fmap, Hj. simpl. by rewrite Hid. }
  congruence.
Qed.

Lemma save_lookup_eq (p p' : Poll) (db : list Poll) (k : nat) :
  db !! k = Some p → _id p' = _id p → save p' db !! k = Some p'.
Proof.
  intros Hk Hid. unfold save. rewrite list_lookup_fmap, Hk. simpl.
  case_decide; [done|congruence].
Qed.

(** The handlers save the record the mutation functions compute. *)
Lemma pollHandler_open (tp : TelegramPoll) (db : list Poll) (p : Poll) :
  tg_id tp ≠ "" → findByPollId (tg_id tp) db = Some p → isClosed p = false →
  pollHandler (Some tp) db = save (applySnapshot tp p) db.
Proof.
  intros Hid Hfind Hopen. unfold pollHandler.
  case_decide; [done|]. by rewrite Hfind, Hopen.
Qed.

Lemma pollAnswerHandler_open (regexTest : string → string → bool) (now : Z)
    (id : string) (u : User) (ids : list Z) (db : list Poll) (p : Poll) :
  id ≠ "" → resolvePoll regexTest id db = Some p → isClosed p = false →
  pollAnswerHandler regexTest now (Some (mkPollAnswer id (Some u) ids)) db
  = save (castVote now u ids p) db.
Proof.
  intros Hid Hfind Hopen. unfold pollAnswerHandler. simpl.
  case_decide; [done|]. by rewrite Hfind, Hopen.
Qed.

Lemma refreshpoll_tracked (now chat message_id : Z) (tp : TelegramPoll)
    (db : list Poll) (p : Poll) :
  findOne (λ q, chatId q = chat ∧ messageId q = message_id) db = Some p →
  isTracked p = true →
  refreshpoll now chat message_id tp db = save (applyRefresh now tp p) db.
Proof. intros Hfind Htracked. unfold refreshpoll. by rewrite Hfind, Htracked. Qed.

(** ** A push on a poll that is not tracked *)

(** C10.  When the snapshot push resolves to an open poll that is not
    tracked, the handler reconciles no option: the record it saves is the
    stored record with [total_voter_count] overwritten by the observed
    total, its options (their [voterIds] and [existingVotes]) are the
    stored ones, and the record is in the store afterwards. *)
Theorem untracked_push_overwrites_total_only (tp : TelegramPoll) (db : list Poll) (p : Poll) :
  tg_id tp ≠ "" →
  findByPollId (tg_id tp) db = Some p →
  isClosed p = false →
  isTracked p = false →
  let p' := set_total_voter_count (tg_total_voter_count tp) p in
  pollHandler (Some tp) db = save p' db
  ∧ p' ∈ pollHandler (Some tp) db
  ∧ options p' = options p
  ∧ total_voter_count p' = tg_total_voter_count tp.
Proof.
  intros Hid Hfind Hopen Huntracked p'.
  assert (pollHandler (Some tp) db = save p' db) as Heq.
  { rewrite (pollHandler_open tp db p) by done.
    f_equal. unfold applySnapshot. simpl. by rewrite Huntracked. }
  split_and!; try done.
  rewrite Heq. apply (save_elem_of p); [|done]. by eapply findByPollId_elem_of.
Qed.

Lemma untracked_push_witness :
  let tp := mkTelegramPoll "5890654314309812777" (Some 4) (Some [Some 3; Some 1]) in
  let p' := set_total_voter_count (Some 4) untracked_poll in
  pollHandler (Some tp) [untracked_poll] = save p' [untracked_poll]
  ∧ p' ∈ pollHandler (Some tp) [untracked_poll]
  ∧ options p' = options untracked_poll
  ∧ total_voter_count p' = Some 4.
Proof.
  apply (untracked_push_overwrites_total_only
           (mkTelegramPoll "5890654314309812777" (Some 4) (Some [Some 3; Some 1]))
           [untracked_poll] untracked_poll).
  - discriminate.
  - reflexivity.
  - reflexivity.
  - reflexivity.
Defined.

(** ** Closed polls *)

Lemma closed_id_ne (db : list Poll) (p q : Poll) :
  NoDup (_id <$> db) → p ∈ db → q ∈ db →
  isClosed p = true → isClosed q = false → _id p ≠ _id q.
Proof.
  intros Hnd Hp Hq Hclosed Hopen Hid.
  assert (p = q) by (by eapply unique_id). congruence.
Qed.

Lemma applySnapshot_id (tp : TelegramPoll) (p : Poll) : _id (applySnapshot tp p) = _id p.
Proof.
  unfold applySnapshot. simpl. destruct (isTracked p); [|done].
  by destruct (tg_options tp).
Qed.

Lemma castVote_id (now : Z) (u : User) (ids : list Z) (p : Poll) :
  _id (castVote now u ids p) = _id p.
Proof. unfold castVote, recount. by case_decide. Qed.

Lemma updateTrackedPoll_id (now : Z) (tp : TelegramPoll) (p p' : Poll) :
  updateTrackedPoll now tp p = Some p' → _id p' = _id p.
Proof.
  unfold updateTrackedPoll. destruct (tg_total_voter_count tp); [|done].
  case_decide; [done|]. intros [= <-]. by destruct (tg_options tp).
Qed.

Lemma pollHandler_keeps_closed (pollData : option TelegramPoll)
    (db : list Poll) (k : nat) (p : Poll) :
  NoDup (_id <$> db) → db !! k = Some p → isClosed p = true →
  pollHandler pollData db !! k = Some p.
Proof.
  intros Hnd Hk Hclosed. unfold pollHandler.
  destruct pollData as [tp|]; [|done]. case_decide; [done|].
  destruct (findByPollId (tg_id tp) db) as [q|] eqn:Hq; [|done].
  destruct (isClosed q) eqn:Hopen; [done|].
  apply save_lookup_ne; [done|]. rewrite applySnapshot_id.
  eapply closed_id_ne; eauto using list_elem_of_lookup_2, findByPollId_elem_of.
Qed.

Section ClosedPolls.
Variable regexTest : string → string → bool.

Lemma resolvePoll_elem_of (id : string) (db : list Poll) (q : Poll) :
  resolvePoll regexTest id db = Some q → q ∈ db.
Proof.
  unfold resolvePoll.
  destruct (findByPollId id db) as [q'|] eqn:Hq.
  { intros [= <-]. by eapply findByPollId_elem_of. }
  assert (∀ x, x ∈ findActivePolls regexTest id db → x ∈ db) as Hsub.
  { intros x. unfold findActivePolls. case_decide; rewrite list_elem_of_filter; tauto. }
  case_decide.
  - intros Hhd. apply Hsub. by apply head_Some_elem_of.
  - case_decide; [|done]. intros Hhd. apply Hsub.
    apply head_Some_elem_of in Hhd. by apply js_sort_elem_of in Hhd.
Qed.

Lemma pollAnswerHandler_keeps_closed (now : Z) (answer : option PollAnswer)
    (db : list Poll) (k : nat) (p : Poll) :
  NoDup (_id <$> db) → db !! k = Some p → isClosed p = true →
  pollAnswerHandler regexTest now answer db !! k = Some p.
Proof.
  intros Hnd Hk Hclosed. unfold pollAnswerHandler.
  destruct answer as [answer|]; [|done].
  destruct (user answer) as [u|]; [|done]. case_decide; [done|].
  destruct (resolvePoll regexTest (poll_id answer) db) as [q|] eqn:Hq; [|done].
  destruct (isClosed q) eqn:Hopen; [done|].
  apply save_lookup_ne; [done|]. rewrite castVote_id.
  eapply closed_id_ne; eauto using list_elem_of_lookup_2, resolvePoll_elem_of.
Qed.
End ClosedPolls.

Lemma updateTrackedPolls_keeps_closed (fetch : Poll → option TelegramPoll) (now : Z)
    (db : list Poll) (k : nat) (p : Poll) :
  NoDup (_id <$> db) → db !! k = Some p → isClosed p = true →
  updateTrackedPolls fetch now db !! k = Some p.
Proof.
  intros Hnd Hk Hclosed. unfold updateTrackedPolls.
  set (batch := take _ _).
  assert (∀ q, q ∈ batch → _id p ≠ _id q) as Hbatch.
  { intros q Hq. unfold batch in Hq. apply take_elem_of, js_sort_elem_of in Hq.
    apply list_elem_of_filter in Hq as [[_ Hopen] Hin].
    eapply closed_id_ne; eauto using list_elem_of_lookup_2. }
  clearbody batch. revert Hk. generalize db at 1 2 as db'.
  induction batch as [|q batch IH]; intros db' Hk; simpl; [done|].
  apply IH.
  - intros q' Hq'. apply Hbatch. by right.
  - destruct (fetch q) as [tp|]; [|done].
    destruct (updateTrackedPoll now tp q) as [q'|] eqn:Hq'; [|done].
    apply save_lookup_ne; [done|].
    rewrite (updateTrackedPoll_id _ _ _ _ Hq'). apply Hbatch. by left.
Qed.

Lemma addVote_closed (optionIndex uid : Z) (p : Poll) :
  isClosed p = true → addVote optionIndex uid p = (p, false).
Proof. intros Hclosed. unfold addVote. by rewrite Hclosed. Qed.

(** C2 at its failing input.  The [refreshpoll] command does not look at
    [isClosed]: replying to the message of a closed tracked poll whose
    option 0 holds three placeholders, while the platform shows one voter,
    rewrites the stored record: two placeholders are removed,
    [existingVotes] and [total_voter_count] become 1.  The snapshot push,
    the named vote, the periodic refresh and [addVote] leave a closed
    record as it is ([pollHandler_keeps_closed],
    [pollAnswerHandler_keeps_closed], [updateTrackedPolls_keeps_closed],
    [addVote_closed]). *)
Theorem refreshpoll_mutates_closed_poll :
  isClosed closed_poll_3 = true
  ∧ refreshpoll 20 (-100200) 7
      (mkTelegramPoll "5890654314309812234" (Some 1) (Some [Some 1; Some 0]))
      [closed_poll_3]
    = [mkPoll 1 (Some "5890654314309812234") None (-100200) 7
         [mkOption "A" [-1000001] 1; mkOption "B" [] 0]
         [] false true true (Some 1) 20]
  ∧ refreshpoll 20 (-100200) 7
      (mkTelegramPoll "5890654314309812234" (Some 1) (Some [Some 1; Some 0]))
      [closed_poll_3]
    ≠ [closed_poll_3].
Proof. split_and!; [reflexivity|reflexivity|discriminate]. Qed.

(** ** Placeholder allocation *)

Lemma Math_min_le (x : Z) (l : list Z) :
  Math_min x l ≤ x ∧ ∀ y, y ∈ l → Math_min x l ≤ y.
Proof.
  unfold Math_min. revert x. induction l as [|z l IH]; intros x; simpl.
  - split; [lia|]. intros y Hy. by apply elem_of_nil in Hy.
  - destruct (IH (Z.min x z)) as [H1 H2]. split; [lia|].
    intros y Hy. apply elem_of_cons in Hy as [->|Hy]; [lia|by apply H2].
Qed.

Lemma batch_start_below (i : nat) (l : list Z) :
  batch_start i l < 0 ∧ ∀ y, y ∈ l → y < 0 → batch_start i l < y.
Proof.
  unfold batch_start.
  destruct (filter (λ id, id < 0) l) as [|x r] eqn:Hf.
  - split; [unfold baseId; lia|].
    intros y Hy Hneg. exfalso. by eapply (filter_nil_not_elem_of _ l y Hf).
  - assert (∀ y, y ∈ l → y < 0 → y ∈ x :: r) as Hall.
    { intros y Hy Hneg. rewrite <- Hf. by apply list_elem_of_filter. }
    assert (x < 0) as Hx.
    { assert (x ∈ filter (λ id, id < 0) l) as Hin by (rewrite Hf; left).
      by apply list_elem_of_filter in Hin as [? _]. }
    destruct (Math_min_le x r) as [H1 H2].
    split; [lia|]. intros y Hy Hneg.
    apply Hall in Hy; [|done]. apply elem_of_cons in Hy as [->|Hy]; [lia|].
    specialize (H2 y Hy). lia.
Qed.

Lemma elem_of_descending_from (start n y : Z) :
  y ∈ descending_from start n ↔ start - n < y ≤ start.
Proof.
  unfold descending_from. rewrite list_elem_of_fmap. split.
  - intros (k & -> & Hk). apply elem_of_seq in Hk. lia.
  - intros Hy. exists (Z.to_nat (start - y)). split; [lia|].
    apply elem_of_seq. lia.
Qed.

Lemma descending_from_NoDup (start n : Z) : NoDup (descending_from start n).
Proof.
  unfold descending_from. apply NoDup_fmap_2; [|apply NoDup_seq].
  intros a b. lia.
Qed.

Lemma descending_from_length (start n : Z) :
  length (descending_from start n) = Z.to_nat n.
Proof. unfold descending_from. by rewrite length_fmap, length_seq. Qed.

(** What the push computes on an increase. *)
Lemma pushOption_increase (i : nat) (n : Z) (o : PollOption) :
  existingVotes o < n →
  pushOption i (Some n) o =
    set_existingVotes n
      (set_voterIds
         (voterIds o ++ descending_from (batch_start i (voterIds o)) (n - existingVotes o))
         o).
Proof.
  intros Hlt. unfold pushOption, batch_start. rewrite or0_id.
  case_decide; [|exfalso; lia]. case_decide; [done|exfalso; lia].
Qed.

(** The batch of a push is made of fresh negative ids, all distinct. *)
Lemma push_batch_fresh (i : nat) (n : Z) (o : PollOption) (y : Z) :
  y ∈ descending_from (batch_start i (voterIds o)) (n - existingVotes o) →
  y < 0 ∧ y ∉ voterIds o.
Proof.
  intros Hy. apply elem_of_descending_from in Hy.
  destruct (batch_start_below i (voterIds o)) as [Hneg Hbelow].
  split; [lia|]. intros Hin. specialize (Hbelow y Hin). lia.
Qed.

Lemma pushOption_NoDup (i : nat) (ob : option Z) (o : PollOption) :
  NoDup (filter (λ id, id < 0) (voterIds o)) →
  NoDup (filter (λ id, id < 0) (voterIds (pushOption i ob o))).
Proof.
  intros Hnd. destruct ob as [n|]; [|done].
  destruct (decide (existingVotes o < n)) as [Hlt|Hge].
  - rewrite pushOption_increase by done. simpl. rewrite filter_app.
    apply NoDup_app. split_and!.
    + done.
    + intros x Hx Hx'. apply list_elem_of_filter in Hx as [_ Hx].
      apply list_elem_of_filter in Hx' as [_ Hx'].
      by apply (push_batch_fresh i n o) in Hx' as [_ ?].
    + apply NoDup_filter, descending_from_NoDup.
  - rewrite pushOption_not_above by lia. done.
Qed.

(** Over any run of pushes an option never holds a placeholder id twice. *)
Lemma pushes_NoDup (i : nat) (observations : list (option Z)) (o : PollOption) :
  NoDup (filter (λ id, id < 0) (voterIds o)) →
  NoDup (filter (λ id, id < 0) (voterIds (pushes i observations o))).
Proof.
  unfold pushes. revert o.
  induction observations as [|ob obs IH]; intros o Hnd; simpl; [done|].
  by apply IH, pushOption_NoDup.
Qed.

(** The periodic refresh looks for existing placeholders among the ids
    [>= baseId]; the ids it allocates are all below [baseId], so it finds
    none and every batch starts again at [baseId - 1]. *)
Lemma scheduledOption_restarts (i : nat) (n : Z) (o : PollOption) :
  (∀ id, id ∈ voterIds o → id < 0 → id < baseId i) →
  existingVotes o < n → 0 ≤ n ≤ 10000 →
  voterIds (scheduledOption i (Some n) o)
    = voterIds o ++ descending_from (baseId i - 1) (n - existingVotes o).
Proof.
  intros Hlow Hlt Hrange. unfold scheduledOption. rewrite or0_id.
  case_decide; [exfalso; lia|]. case_decide; [|exfalso; lia].
  destruct (filter _ (voterIds o)) as [|x r] eqn:Hf; [done|].
  assert (x ∈ filter (λ id, id < 0 ∧ id >= baseId i) (voterIds o)) as Hx
    by (rewrite Hf; left).
  apply list_elem_of_filter in Hx as [[Hneg Hge] Hin].
  specialize (Hlow x Hin Hneg). lia.
Qed.

(** C6 at its failing input.  A tick of the periodic refresh on an open
    tracked poll whose option 0 holds [-1000001, -1000002, -1000003]
    ([existingVotes = 3]), the platform showing five voters on it, appends
    [-1000001, -1000002] again: the batch starts at [-1000000 - 1], not at
    [min - 1 = -1000004], it is not disjoint from the option's ids and the
    option then holds two ids twice.  The snapshot push on the same input
    appends [-1000004, -1000005]. *)
Theorem scheduled_refresh_reallocates_ids :
  let tp := mkTelegramPoll "5890654314309812234" (Some 5) (Some [Some 5; Some 0]) in
  (options <$> updateTrackedPolls (λ _, Some tp) 20 [tracked_poll_3])
    = [[mkOption "A" [-1000001; -1000002; -1000003; -1000001; -1000002] 5;
        mkOption "B" [] 0]]
  ∧ ¬ NoDup [-1000001; -1000002; -1000003; -1000001; -1000002]
  ∧ (options <$> pollHandler (Some tp) [tracked_poll_3])
    = [[mkOption "A" [-1000001; -1000002; -1000003; -1000004; -1000005] 5;
        mkOption "B" [] 0]].
Proof.
  split_and!; [reflexivity| |reflexivity].
  intros Hnd. apply NoDup_cons_1_1 in Hnd. apply Hnd. set_solver.
Qed.

(** ** The recount of the total *)

Lemma collect_positive (s : gset Z) (ids : list Z) :
  foldl (λ set' id, if decide (id > 0) then set' ∪ {[ id ]} else set') s ids
  = s ∪ list_to_set (filter (λ id, id > 0) ids).
Proof.
  revert s. induction ids as [|id ids IH]; intros s; simpl.
  - set_solver.
  - rewrite IH. rewrite filter_cons. case_decide; set_solver.
Qed.

Lemma uniqueVoters_acc (s : gset Z) (opts : list PollOption) :
  foldl (λ set option,
           foldl (λ set' id, if decide (id > 0) then set' ∪ {[ id ]} else set')
                 set (voterIds option))
        s opts
  = s ∪ list_to_set (filter (λ id, id > 0) (concat (voterIds <$> opts))).
Proof.
  revert s. induction opts as [|o opts IH]; intros s; simpl.
  - set_solver.
  - rewrite IH, collect_positive, filter_app, list_to_set_app_L. set_solver.
Qed.

Lemma uniqueVoters_list (opts : list PollOption) :
  uniqueVoters opts = list_to_set (filter (λ id, id > 0) (concat (voterIds <$> opts))).
Proof. unfold uniqueVoters. rewrite uniqueVoters_acc. set_solver. Qed.

Lemma size_list_to_set_remove_dups (l : list Z) :
  size (list_to_set l : gset Z) = length (remove_dups l).
Proof.
  rewrite <- (size_list_to_set (C := gset Z) (remove_dups l)) by apply NoDup_remove_dups.
  f_equal. apply set_eq. intros x.
  by rewrite !elem_of_list_to_set, elem_of_remove_dups.
Qed.

Lemma placeholderVotes_acc (a : Z) (opts : list PollOption) :
  foldl (λ sum option,
           sum + Z.of_nat (length (filter (λ id, id < 0) (voterIds option))))
        a opts
  = a + Z.of_nat (sum_list_with negative_count opts).
Proof.
  revert a. induction opts as [|o opts IH]; intros a; simpl; [lia|].
  rewrite IH. unfold negative_count. lia.
Qed.

Lemma newTotalVoterCount_recompute (opts : list PollOption) :
  newTotalVoterCount opts = recompute opts.
Proof.
  unfold newTotalVoterCount, recompute, placeholderVotes, distinct_positive_ids.
  rewrite uniqueVoters_list, size_list_to_set_remove_dups, placeholderVotes_acc. lia.
Qed.

Lemma recount_total (p : Poll) :
  total_voter_count (recount p) = Some (newTotalVoterCount (options p))
  ∧ options (recount p) = options p.
Proof.
  unfold recount. case_decide as Hne; simpl; [done|].
  split; [|done].
  destruct (decide (total_voter_count p = Some (newTotalVoterCount (options p))));
    [done|contradiction].
Qed.

(** C5.  The total the named-vote handler recomputes is, whatever the
    ledger state, the number of distinct positive ids across all options
    plus the sum over the options of their numbers of negative ids; the
    handler stores exactly that number in [total_voter_count]; on the
    scenario of the spec (A = [10, 20, -1000001],
    B = [20, -2000001, -2000002]) it is 2 + 3 = 5. *)
Theorem recount_is_distinct_positives_plus_placeholders :
  (∀ opts, newTotalVoterCount opts = recompute opts)
  ∧ (∀ now u ids p,
       total_voter_count (castVote now u ids p)
       = Some (recompute (options (castVote now u ids p))))
  ∧ distinct_positive_ids options_A_B = [10; 20]
  ∧ sum_list_with negative_count options_A_B = 3%nat
  ∧ newTotalVoterCount options_A_B = 5.
Proof.
  split_and!.
  - apply newTotalVoterCount_recompute.
  - intros now u ids p. unfold castVote.
    destruct (recount_total
                (set_updatedAt now
                   (set_mentions (updateMentions u ids (mentions p))
                      (set_options
                         (recordVotes (isMultipleChoice p) (user_id u) ids (options p)) p))))
      as [Ht Ho].
    simpl in *. rewrite Ht, Ho. by rewrite newTotalVoterCount_recompute.
  - reflexivity.
  - reflexivity.
  - rewrite newTotalVoterCount_recompute. reflexivity.
Qed.

(** ** Named votes and [existingVotes] *)

Lemma clearVotes_lookup (uid : Z) (opts : list PollOption) (j : nat) :
  clearVotes uid opts !! j
  = (λ o, set_voterIds (filter (λ id, id ≠ uid) (voterIds o)) o) <$> opts !! j.
Proof.
  unfold clearVotes. rewrite list_lookup_fmap.
  destruct (opts !! j); simpl; [|done]. by rewrite filter_keepVote.
Qed.

Lemma clearVotes_length (uid : Z) (opts : list PollOption) :
  length (clearVotes uid opts) = length opts.
Proof. unfold clearVotes. by rewrite length_fmap. Qed.



(** A vote for the option at index [j], recorded. *)
Lemma recordVote_added (multiple : bool) (uid : Z) (opts : list PollOption)
    (j : nat) (o : PollOption) :
  opts !! j = Some o →
  multiple = false ∨ uid ∉ voterIds o →
  let ids' := (if multiple then voterIds o else filter (λ id, id ≠ uid) (voterIds o)) ++ [uid] in
  recordVote multiple uid opts (Z.of_nat j) !! j
  = Some {| text := text o; voterIds := ids';
            existingVotes := Z.max (existingVotes o) (realVoterCount ids') |}.
Proof.
  intros Hj Hnew ids'. unfold recordVote.
  pose proof (lookup_lt_Some _ _ _ Hj) as Hlt.
  case_decide as Hrange; [|exfalso; lia]. rewrite Nat2Z.id.
  set (opts1 := if negb multiple then clearVotes uid opts else opts).
  set (o1 := if multiple then o else set_voterIds (filter (λ id, id ≠ uid) (voterIds o)) o).
  assert (opts1 !! j = Some o1) as Hj1.
  { unfold opts1, o1. destruct multiple; simpl; [done|].
    by rewrite clearVotes_lookup, Hj. }
  assert (length opts1 = length opts) as Hlen1.
  { unfold opts1. destruct multiple; simpl; [done|apply clearVotes_length]. }
  assert (uid ∉ voterIds o1) as Hfresh.
  { unfold o1. destruct multiple; simpl.
    - by destruct Hnew.
    - rewrite list_elem_of_filter. tauto. }
  rewrite Hj1. case_decide; [done|].
  rewrite list_lookup_insert_eq by lia. f_equal.
  assert (voterIds o1 ++ [uid] = ids') as Hids by (unfold o1, ids'; by destruct multiple).
  assert (existingVotes o1 = existingVotes o ∧ text o1 = text o) as [Hev Htext]
    by (unfold o1; by destruct multiple).
  clearbody o1 ids'. subst ids'.
  unfold realVoterCount, set_existingVotes, set_voterIds.
  case_decide as Hcmp; simpl in *; rewrite Htext; f_equal; lia.
Qed.

Lemma retractVote_existingVotes (uid : Z) (o : PollOption) :
  voterIds (retractVote uid o) = filter (λ id, id ≠ uid) (voterIds o)
  ∧ existingVotes (retractVote uid o)
    = if decide (uid ∈ voterIds o)
      then Z.min (existingVotes o) (realVoterCount (filter (λ id, id ≠ uid) (voterIds o)))
      else existingVotes o.
Proof.
  unfold retractVote, realVoterCount. rewrite filter_keepVote.
  destruct (decide (uid ∈ voterIds o)) as [Hin|Hnin].
  - rewrite bool_decide_eq_true_2 by done. simpl.
    case_decide; simpl; split; try done; lia.
  - rewrite bool_decide_eq_false_2 by done. done.
Qed.

Lemma castVote_options (now : Z) (u : User) (ids : list Z) (p : Poll) :
  options (castVote now u ids p)
  = recordVotes (isMultipleChoice p) (user_id u) ids (options p).
Proof. unfold castVote, recount. by case_decide. Qed.




(** ** Poll lookup of the named vote *)

Section Lookup.
Variable regexTest : string → string → bool.

Lemma findActivePolls_cases (id : string) (db : list Poll) :
  findActivePolls regexTest id db
  = if decide (prefixMatches regexTest id db = []) then openPolls db
    else prefixMatches regexTest id db.
Proof.
  unfold findActivePolls, prefixMatches, openPolls.
  destruct (filter _ db) as [|x l] eqn:Hf; simpl; repeat case_decide; done.
Qed.

Lemma most_recent_first (l : list Poll) (p : Poll) :
  head (js_sort (λ a b, updatedAt b - updatedAt a) l) = Some p →
  p ∈ l ∧ ∀ q, q ∈ l → updatedAt q ≤ updatedAt p.
Proof.
  intros Hhd.
  apply js_sort_head in Hhd as [Hin Hall]; unfold before in *; try (intros; lia).
  split; [done|]. intros q Hq. specialize (Hall q Hq). simpl in Hall. lia.
Qed.

(** C7 (as amended).  When the inbound id equals no stored [pollId] and
    no stored [originalPollId]:
    if its ten-character prefix matches no open poll the handler falls
    back on all open polls; the lookup fails only when the store holds no
    open poll, and the vote event then leaves the store as it is;
    otherwise it resolves to an open poll of the store, the single one or
    one most recently updated;
    if the prefix matches exactly one open poll, the lookup resolves to
    that poll. *)
Theorem resolve_without_exact_match (id : string) (db : list Poll) :
  findByPollId id db = None →
  (prefixMatches regexTest id db = [] →
     (openPolls db = [] →
        resolvePoll regexTest id db = None
        ∧ ∀ now u ids,
            pollAnswerHandler regexTest now (Some (mkPollAnswer id (Some u) ids)) db = db)
     ∧ (openPolls db ≠ [] →
        ∃ p, resolvePoll regexTest id db = Some p
             ∧ p ∈ db ∧ isClosed p = false
             ∧ ∀ q, q ∈ db → isClosed q = false → updatedAt q ≤ updatedAt p))
  ∧ (∀ p, prefixMatches regexTest id db = [p] → resolvePoll regexTest id db = Some p).
Proof.
  intros Hexact. split.
  - intros Hnone. split.
    + intros Hopen.
      assert (resolvePoll regexTest id db = None) as Hres.
      { unfold resolvePoll. rewrite Hexact, findActivePolls_cases, Hnone, Hopen. done. }
      split; [done|]. intros now u ids. unfold pollAnswerHandler. simpl.
      case_decide; [done|]. by rewrite Hres.
    + intros Hopen. unfold resolvePoll.
      rewrite Hexact, findActivePolls_cases, Hnone. simpl.
      assert (∀ p, p ∈ openPolls db → p ∈ db ∧ isClosed p = false) as Hsub.
      { intros p Hp. apply list_elem_of_filter in Hp. tauto. }
      assert (∀ q, q ∈ db → isClosed q = false → q ∈ openPolls db) as Hsup.
      { intros q Hq Hc. by apply list_elem_of_filter. }
      destruct (openPolls db) as [|p1 [|p2 l]] eqn:Hl; [done| |].
      * exists p1. simpl. split; [done|].
        destruct (Hsub p1) as [? ?]; [left|]. split_and!; try done.
        intros q Hq Hc. specialize (Hsup q Hq Hc).
        apply list_elem_of_singleton in Hsup as ->. lia.
      * rewrite decide_False by (simpl; lia). rewrite decide_True by (simpl; lia).
        destruct (head (js_sort (λ a b, updatedAt b - updatedAt a) (p1 :: p2 :: l)))
          as [p|] eqn:Hhd.
        -- exists p. apply most_recent_first in Hhd as [Hin Hmax].
           destruct (Hsub p Hin) as [? ?]. split_and!; try done.
           intros q Hq Hc. apply Hmax. by apply Hsup.
        -- exfalso. apply head_None in Hhd.
           pose proof (js_sort_length (λ a b, updatedAt b - updatedAt a) (p1 :: p2 :: l)) as Hlen.
           rewrite Hhd in Hlen. simpl in Hlen. lia.
  - intros p Hone. unfold resolvePoll.
    rewrite Hexact, findActivePolls_cases, Hone. simpl. done.
Qed.
End Lookup.

Lemma resolve_without_exact_match_witness :
  (prefixMatches includes "4000000000000000001" [poll_555] = [] →
     (openPolls [poll_555] = [] →
        resolvePoll includes "4000000000000000001" [poll_555] = None
        ∧ ∀ now u ids,
            pollAnswerHandler includes now
              (Some (mkPollAnswer "4000000000000000001" (Some u) ids)) [poll_555]
            = [poll_555])
     ∧ (openPolls [poll_555] ≠ [] →
        ∃ p, resolvePoll includes "4000000000000000001" [poll_555] = Some p
             ∧ p ∈ [poll_555] ∧ isClosed p = false
             ∧ ∀ q, q ∈ [poll_555] → isClosed q = false → updatedAt q ≤ updatedAt p))
  ∧ (∀ p, prefixMatches includes "4000000000000000001" [poll_555] = [p] →
          resolvePoll includes "4000000000000000001" [poll_555] = Some p).
Proof.
  apply (resolve_without_exact_match includes "4000000000000000001" [poll_555]).
  reflexivity.
Defined.

(** C7 as stated fails: the inbound id equals no stored id and its prefix
    matches no open poll, yet the lookup resolves to the store's open poll
    and the vote of user 777 for option 1 is recorded on it. *)
Lemma unmatched_id_resolves_to_open_poll :
  let id := "4000000000000000001" in
  let answer := mkPollAnswer id (Some (mkUser 777 None None None)) [1] in
  findByPollId id [poll_555] = None
  ∧ prefixMatches includes id [poll_555] = []
  ∧ resolvePoll includes id [poll_555] = Some poll_555
  ∧ (options <$> pollAnswerHandler includes 20 (Some answer) [poll_555])
    = [[mkOption "A" [555; -1000001; -1000002] 3; mkOption "B" [777] 1]]
  ∧ pollAnswerHandler includes 20 (Some answer) [poll_555] ≠ [poll_555].
Proof. split_and!; try reflexivity. discriminate. Qed.

(** ** A named vote on a single-choice poll *)

Lemma recordVote_length (multiple : bool) (uid : Z) (opts : list PollOption) (idx : Z) :
  length (recordVote multiple uid opts idx) = length opts.
Proof.
  unfold recordVote. case_decide; [|done].
  assert (length (if negb multiple then clearVotes uid opts else opts) = length opts) as Hlen
    by (destruct multiple; simpl; [done|apply clearVotes_length]).
  destruct (_ !! Z.to_nat idx); [|done].
  case_decide; [done|]. by rewrite length_insert.
Qed.

(** On a single-choice poll the options other than the selected one lose
    the voter's id and nothing else. *)
Lemma recordVote_other (uid : Z) (opts : list PollOption) (k j : nat) (o : PollOption) :
  (k < length opts)%nat → j ≠ k → opts !! j = Some o →
  recordVote false uid opts (Z.of_nat k) !! j
  = Some (set_voterIds (filter (λ id, id ≠ uid) (voterIds o)) o).
Proof.
  intros Hk Hne Hj. unfold recordVote. case_decide; [|exfalso; lia].
  rewrite Nat2Z.id. simpl.
  assert (clearVotes uid opts !! j
          = Some (set_voterIds (filter (λ id, id ≠ uid) (voterIds o)) o)) as Hj1
    by (by rewrite clearVotes_lookup, Hj).
  destruct (clearVotes uid opts !! k); [|done].
  case_decide; [done|]. by rewrite list_lookup_insert_ne.
Qed.

Lemma filter_negative_keep (uid : Z) (l tail : list Z) :
  0 < uid → (∀ x, x ∈ tail → x = uid) →
  filter (λ id, id < 0) (filter (λ id, id ≠ uid) l ++ tail) = filter (λ id, id < 0) l.
Proof.
  intros Hpos Htail. rewrite filter_app, list_filter_filter.
  replace (filter (λ id, id < 0) tail) with (@nil Z).
  - rewrite app_nil_r. apply list_filter_iff. intros x. lia.
  - symmetry. induction tail as [|x tail IH]; [done|].
    rewrite filter_cons. rewrite decide_False.
    + apply IH. intros y Hy. apply Htail. by right.
    + rewrite (Htail x) by left. lia.
Qed.

Lemma castVote_mentions (now : Z) (u : User) (ids : list Z) (p : Poll) :
  mentions (castVote now u ids p) = updateMentions u ids (mentions p).
Proof. unfold castVote, recount. by case_decide. Qed.

Lemma filter_filter_same (uid : Z) (l : list Z) :
  filter (λ id, id ≠ uid) (filter (λ id, id ≠ uid) l) = filter (λ id, id ≠ uid) l.
Proof. rewrite list_filter_filter. apply list_filter_iff. intros x. tauto. Qed.

Lemma filter_others_push (uid : Z) (l : list Z) :
  filter (λ id, id ≠ uid) (l ++ [uid]) = filter (λ id, id ≠ uid) l.
Proof.
  rewrite filter_app, filter_cons, decide_False by (intros Hc; by apply Hc).
  by rewrite filter_nil, app_nil_r.
Qed.

Lemma sameOthers_refl (uid : Z) (o : PollOption) : sameOthers uid o o.
Proof. by unfold sameOthers. Qed.

Lemma sameOthers_trans (uid : Z) (o1 o2 o3 : PollOption) :
  sameOthers uid o1 o2 → sameOthers uid o2 o3 → sameOthers uid o1 o3.
Proof. unfold sameOthers. intros [? ?] [? ?]. split; congruence. Qed.

Lemma recordVote_sameOthers (multiple : bool) (uid : Z) (opts : list PollOption)
    (idx : Z) (j : nat) (o : PollOption) :
  opts !! j = Some o →
  ∃ o', recordVote multiple uid opts idx !! j = Some o' ∧ sameOthers uid o o'.
Proof.
  intros Hj. unfold recordVote.
  case_decide; [|exists o; split; [done|apply sameOthers_refl]].
  set (opts1 := if negb multiple then clearVotes uid opts else opts).
  assert (∃ o1, opts1 !! j = Some o1 ∧ sameOthers uid o o1) as (o1 & Hj1 & Ho1).
  { unfold opts1. destruct multiple; simpl; [exists o; split; [done|apply sameOthers_refl]|].
    rewrite clearVotes_lookup, Hj. simpl. eexists. split; [done|].
    split; [done|]. simpl. apply filter_filter_same. }
  destruct (opts1 !! Z.to_nat idx) as [ok|] eqn:Hk; [|by exists o1].
  case_decide; [by exists o1|].
  destruct (decide (Z.to_nat idx = j)) as [Heq|Hne].
  - rewrite Heq in *. rewrite list_lookup_insert_eq by (by eapply lookup_lt_Some).
    assert (ok = o1) as -> by congruence.
    eexists. split; [done|]. eapply sameOthers_trans; [exact Ho1|].
    split; [by case_decide|]. case_decide; simpl; apply filter_others_push.
  - rewrite list_lookup_insert_ne by done. by exists o1.
Qed.

Lemma recordVotes_sameOthers (multiple : bool) (uid : Z) (ids : list Z)
    (opts : list PollOption) (j : nat) (o : PollOption) :
  opts !! j = Some o →
  ∃ o', recordVotes multiple uid ids opts !! j = Some o' ∧ sameOthers uid o o'.
Proof.
  intros Hj. unfold recordVotes. case_decide.
  - clear H. revert opts o Hj.
    induction ids as [|idx ids IH]; intros opts o Hj; simpl.
    + exists o. split; [done|apply sameOthers_refl].
    + destruct (recordVote_sameOthers multiple uid opts idx j o Hj) as (o1 & Hj1 & Ho1).
      destruct (IH _ _ Hj1) as (o' & Hj' & Ho'). exists o'. split; [done|].
      by eapply sameOthers_trans.
  - rewrite list_lookup_fmap, Hj. simpl. eexists. split; [done|].
    destruct (retractVote_existingVotes uid o) as [Hv _].
    split.
    + unfold retractVote. destruct (bool_decide _); [case_decide|]; done.
    + rewrite Hv. apply filter_filter_same.
Qed.

Lemma recordVote_outOfRange (multiple : bool) (uid : Z) (opts : list PollOption) (idx : Z) :
  outOfRange opts idx → recordVote multiple uid opts idx = opts.
Proof. intros Hout. unfold recordVote. by rewrite decide_False. Qed.

(** One turn of the loop on a single-choice poll, at an index in range:
    the voter's id is cleared everywhere and put at the end of the
    selected option. *)
Lemma recordVote_single (uid : Z) (opts : list PollOption) (k j : nat) (o : PollOption) :
  (k < length opts)%nat → opts !! j = Some o →
  ∃ o', recordVote false uid opts (Z.of_nat k) !! j = Some o'
        ∧ text o' = text o
        ∧ voterIds o' = filter (λ id, id ≠ uid) (voterIds o)
                        ++ (if decide (j = k) then [uid] else []).
Proof.
  intros Hk Hj. destruct (decide (j = k)) as [->|Hne].
  - rewrite (recordVote_added false _ _ _ _ Hj) by (by left). by eexists.
  - rewrite (recordVote_other _ _ _ _ _ Hk Hne Hj). eexists. split; [done|]. simpl.
    by rewrite app_nil_r.
Qed.

Lemma votes_sameOthers (multiple : bool) (uid : Z) (ids : list Z)
    (opts : list PollOption) (j : nat) (o : PollOption) :
  opts !! j = Some o →
  ∃ o', foldl (recordVote multiple uid) opts ids !! j = Some o' ∧ sameOthers uid o o'.
Proof.
  revert opts o. induction ids as [|idx ids IH]; intros opts o Hj; simpl.
  - exists o. split; [done|apply sameOthers_refl].
  - destruct (recordVote_sameOthers multiple uid opts idx j o Hj) as (o1 & Hj1 & Ho1).
    destruct (IH _ _ Hj1) as (o' & Hj' & Ho'). exists o'. split; [done|].
    by eapply sameOthers_trans.
Qed.

Lemma votes_length (multiple : bool) (uid : Z) (ids : list Z) (opts : list PollOption) :
  length (foldl (recordVote multiple uid) opts ids) = length opts.
Proof.
  revert opts. induction ids as [|idx ids IH]; intros opts; simpl; [done|].
  by rewrite IH, recordVote_length.
Qed.

(** The loop on a single-choice poll: only the last selected index that is
    in range counts. *)
Lemma votes_last_in_range (uid : Z) (opts : list PollOption) (ids : list Z) :
  match lastInRange opts ids with
  | None => foldl (recordVote false uid) opts ids = opts
  | Some k =>
    ∀ j o, opts !! j = Some o →
      ∃ o', foldl (recordVote false uid) opts ids !! j = Some o'
            ∧ text o' = text o
            ∧ voterIds o' = filter (λ id, id ≠ uid) (voterIds o)
                            ++ (if decide (Z.of_nat j = k) then [uid] else [])
  end.
Proof.
  induction ids as [|x ids IH] using rev_ind; [done|].
  unfold lastInRange in *. rewrite foldl_app, filter_app, filter_cons, filter_nil. simpl.
  pose proof (votes_length false uid ids opts) as Hlen.
  case_decide as Hx.
  - rewrite last_snoc. intros j o Hj.
    destruct (votes_sameOthers false uid ids opts j o Hj) as (oc & Hjc & Htext & Hids).
    destruct (recordVote_single uid (foldl (recordVote false uid) opts ids)
                (Z.to_nat x) j oc) as (o' & Hj' & Ht' & Hv'); [lia|done|].
    rewrite Z2Nat.id in Hj' by lia. exists o'. split; [done|]. split; [congruence|].
    rewrite Hv', Hids. f_equal. repeat case_decide; try done; exfalso; lia.
  - rewrite app_nil_r, recordVote_outOfRange; [exact IH|].
    unfold outOfRange. by rewrite Hlen.
Qed.

(** C8 (as amended).  A named vote of user [u] on an open single-choice
    poll (the handler saves [castVote], [pollAnswerHandler_open]) that
    selects the indices [ids], at least one.  When no selected index is in
    range the options are left as they are.  Otherwise, [k] being the last
    selected index in range, every option keeps its text and all its ids
    other than [u]'s in their order (so every negative id), and holds
    [u]'s id exactly when it is the option at [k], where the id stands
    once, at the end.  In both cases the first mention that matches [u]
    gets [voted = true] and the other mentions are left as they are. *)
Theorem single_choice_vote (now : Z) (u : User) (ids : list Z) (p : Poll) :
  isMultipleChoice p = false →
  0 < user_id u →
  ids ≠ [] →
  let p' := castVote now u ids p in
  length (options p') = length (options p)
  ∧ match lastInRange (options p) ids with
    | None => options p' = options p
    | Some k =>
      ∀ j o, options p !! j = Some o →
        ∃ o', options p' !! j = Some o'
              ∧ text o' = text o
              ∧ voterIds o'
                = filter (λ id, id ≠ user_id u) (voterIds o)
                  ++ (if decide (Z.of_nat j = k) then [user_id u] else [])
              ∧ filter (λ id, id < 0) (voterIds o') = filter (λ id, id < 0) (voterIds o)
    end
  ∧ (∀ i mention,
       mentions p !! i = Some mention →
       mentionMatches u mention →
       (∀ i' m', mentions p !! i' = Some m' → (i' < i)%nat → ¬ mentionMatches u m') →
       (∃ mention', mentions p' !! i = Some mention'
                    ∧ voted mention' = true
                    ∧ username mention' = username mention)
       ∧ ∀ i', i' ≠ i → mentions p' !! i' = mentions p !! i').
Proof.
  intros Hsingle Hpos Hne p'. subst p'.
  assert (Z.of_nat (length ids) > 0) as Hsome by (destruct ids; [done|simpl length; lia]).
  assert (options (castVote now u ids p)
          = foldl (recordVote false (user_id u)) (options p) ids) as Hopts.
  { rewrite castVote_options, Hsingle. unfold recordVotes. by rewrite decide_True. }
  pose proof (votes_last_in_range (user_id u) (options p) ids) as Hlast.
  split_and!.
  - rewrite Hopts. apply votes_length.
  - rewrite Hopts. destruct (lastInRange (options p) ids) as [k|]; [|done].
    intros j o Hj. destruct (Hlast j o Hj) as (o' & Hj' & Ht & Hv).
    exists o'. split_and!; try done.
    rewrite Hv. apply filter_negative_keep; [done|]. intros x Hx.
    case_decide; [by apply list_elem_of_singleton in Hx|by apply elem_of_nil in Hx].
  - intros i mention Hi Hmatch Hfirst. rewrite castVote_mentions. unfold updateMentions.
    assert (list_find (λ m, mentionMatches u m) (mentions p) = Some (i, mention)) as ->
      by (by apply list_find_Some).
    pose proof (lookup_lt_Some _ _ _ Hi) as Hlt. split.
    + rewrite list_lookup_insert_eq by done. eexists. split; [done|]. simpl.
      split; [by apply bool_decide_eq_true_2|]. by destruct (noUserId mention).
    + intros i' Hne'. by rewrite list_lookup_insert_ne.
Qed.

(** The scenario of the spec: user 555, on option 0, votes for option 1. *)
Lemma single_choice_vote_witness :
  let p' := castVote 20 user_555 [1] poll_555 in
  length (options p') = length (options poll_555)
  ∧ match lastInRange (options poll_555) [1] with
    | None => options p' = options poll_555
    | Some k =>
      ∀ j o, options poll_555 !! j = Some o →
        ∃ o', options p' !! j = Some o'
              ∧ text o' = text o
              ∧ voterIds o'
                = filter (λ id, id ≠ 555) (voterIds o)
                  ++ (if decide (Z.of_nat j = k) then [555] else [])
              ∧ filter (λ id, id < 0) (voterIds o') = filter (λ id, id < 0) (voterIds o)
    end
  ∧ (∀ i mention,
       mentions poll_555 !! i = Some mention →
       mentionMatches user_555 mention →
       (∀ i' m', mentions poll_555 !! i' = Some m' → (i' < i)%nat
                 → ¬ mentionMatches user_555 m') →
       (∃ mention', mentions p' !! i = Some mention'
                    ∧ voted mention' = true
                    ∧ username mention' = username mention)
       ∧ ∀ i', i' ≠ i → mentions p' !! i' = mentions poll_555 !! i').
Proof.
  apply (single_choice_vote 20 user_555 [1] poll_555).
  - reflexivity.
  - simpl. lia.
  - discriminate.
Defined.

Example vote_555_moves_to_option_1 :
  lastInRange (options poll_555) [1] = Some 1
  ∧ options (castVote 20 user_555 [1] poll_555)
    = [mkOption "A" [-1000001; -1000002] 3; mkOption "B" [555] 1]
  ∧ mentions (castVote 20 user_555 [1] poll_555)
    = [mkMention (Some 555) (Some "ann") None None true].
Proof. split_and!; reflexivity. Qed.

(** C8 as stated fails.  On the poll of the scenario an event of user 555
    that selects the options 0 and 1 leaves 555 on option 1 only: the id
    is cleared anew before each selected option is recorded, so it is not
    added to each selected option.  An event that selects index 5 alone,
    which the poll does not have, removes 555 from no option, while its
    mention is marked as voted. *)
Lemma vote_is_cleared_at_each_selected_index :
  let vote ids := mkPollAnswer "5890654314309812555" (Some user_555) ids in
  isMultipleChoice poll_555 = false
  ∧ isClosed poll_555 = false
  ∧ (options <$> pollAnswerHandler includes 20 (Some (vote [0; 1])) [poll_555])
    = [[mkOption "A" [-1000001; -1000002] 3; mkOption "B" [555] 1]]
  ∧ ¬ (∀ k o', k ∈ [0%nat; 1%nat] →
         options (castVote 20 user_555 [0; 1] poll_555) !! k = Some o' →
         555 ∈ voterIds o')
  ∧ (options <$> pollAnswerHandler includes 20 (Some (vote [5])) [poll_555])
    = [[mkOption "A" [555; -1000001; -1000002] 3; mkOption "B" [] 0]]
  ∧ (mentions <$> pollAnswerHandler includes 20 (Some (vote [5])) [poll_555])
    = [[mkMention (Some 555) (Some "ann") None None true]]
  ∧ ¬ (∀ o', o' ∈ options (castVote 20 user_555 [5] poll_555) → 555 ∉ voterIds o').
Proof.
  split_and!; try reflexivity.
  - intros H. specialize (H 0%nat _ ltac:(left) eq_refl).
    apply (bool_decide_pack _) in H. by vm_compute in H.
  - intros H. apply (H (mkOption "A" [555; -1000001; -1000002] 3)); left.
Qed.

(** ** No duplicate named vote *)

Lemma distinct_positive_remove (uid : Z) (ids : list Z) :
  distinct_positive ids → distinct_positive (filter (λ id, id ≠ uid) ids).
Proof.
  unfold distinct_positive. intros Hnd.
  rewrite list_filter_filter.
  rewrite (list_filter_iff _ (λ id, id ≠ uid ∧ id > 0)) by (intros; tauto).
  rewrite <- list_filter_filter. by apply NoDup_filter.
Qed.

Lemma distinct_positive_push (uid : Z) (ids : list Z) :
  distinct_positive ids → uid ∉ ids → distinct_positive (ids ++ [uid]).
Proof.
  unfold distinct_positive. intros Hnd Hfresh. rewrite filter_app.
  apply NoDup_app. split_and!; [done| |].
  - intros x Hx Hx'. apply list_elem_of_filter in Hx as [_ Hx].
    apply list_elem_of_filter in Hx' as [_ Hx'].
    apply list_elem_of_singleton in Hx' as ->. done.
  - apply NoDup_filter, NoDup_singleton.
Qed.

Create HintDb votes.
#[local] Hint Resolve distinct_positive_remove distinct_positive_push : votes.

Lemma NoDuplicateVoter_clearVotes (uid : Z) (opts : list PollOption) :
  NoDuplicateVoter opts → NoDuplicateVoter (clearVotes uid opts).
Proof.
  unfold NoDuplicateVoter, clearVotes. intros Hall. apply Forall_fmap.
  eapply Forall_impl; [exact Hall|]. intros o Ho. simpl.
  rewrite filter_keepVote. by apply distinct_positive_remove.
Qed.

Lemma NoDuplicateVoter_recordVote (multiple : bool) (uid : Z)
    (opts : list PollOption) (idx : Z) :
  NoDuplicateVoter opts → NoDuplicateVoter (recordVote multiple uid opts idx).
Proof.
  intros Hall. unfold recordVote. case_decide; [|done].
  set (opts1 := if negb multiple then clearVotes uid opts else opts).
  assert (NoDuplicateVoter opts1) as Hall1
    by (unfold opts1; destruct multiple; simpl; auto using NoDuplicateVoter_clearVotes).
  destruct (opts1 !! Z.to_nat idx) as [o|] eqn:Hk; [|done].
  case_decide as Hin; [done|].
  apply Forall_insert; [done|].
  pose proof (Forall_lookup_1 _ _ _ _ Hall1 Hk) as Ho.
  case_decide; simpl; by apply distinct_positive_push.
Qed.

Lemma NoDuplicateVoter_recordVotes (multiple : bool) (uid : Z) (ids : list Z)
    (opts : list PollOption) :
  NoDuplicateVoter opts → NoDuplicateVoter (recordVotes multiple uid ids opts).
Proof.
  intros Hall. unfold recordVotes. case_decide.
  - clear H. revert opts Hall.
    induction ids as [|idx ids IH]; intros opts Hall; simpl; [done|].
    by apply IH, NoDuplicateVoter_recordVote.
  - apply Forall_fmap. eapply Forall_impl; [exact Hall|]. intros o Ho. simpl.
    destruct (retractVote_existingVotes uid o) as [Hv _].
    rewrite Hv. by apply distinct_positive_remove.
Qed.

Lemma NoDuplicateVoter_addVote (optionIndex uid : Z) (p : Poll) :
  NoDuplicateVoter (options p) → NoDuplicateVoter (options (addVote optionIndex uid p).1).
Proof.
  intros Hall. unfold addVote. destruct (isClosed p); [done|].
  case_decide; [done|]. simpl.
  set (opts1 := if negb (isMultipleChoice p) then _ else _).
  assert (NoDuplicateVoter opts1) as Hall1.
  { unfold opts1. destruct (isMultipleChoice p); simpl; [done|].
    apply Forall_fmap. eapply Forall_impl; [exact Hall|]. intros o Ho. simpl.
    by apply distinct_positive_remove. }
  destruct (opts1 !! Z.to_nat optionIndex) as [o|] eqn:Hk; [|done].
  case_decide; [done|]. apply Forall_insert; [done|]. simpl.
  apply distinct_positive_push; [|done]. by eapply (Forall_lookup_1 _ _ _ _ Hall1).
Qed.

Lemma NoDuplicateVoter_applyVote (p : Poll) (e : NamedVote) :
  NoDuplicateVoter (options p) → NoDuplicateVoter (options (applyVote p e)).
Proof.
  intros Hall. destruct e as [now u ids|optionIndex uid]; simpl.
  - destruct (isClosed p); [done|]. rewrite castVote_options.
    by apply NoDuplicateVoter_recordVotes.
  - by apply NoDuplicateVoter_addVote.
Qed.

(** A poll is created with empty [voterIds]. *)
Lemma new_poll_NoDuplicateVoter (opts : list PollOption) :
  Forall (λ o, voterIds o = []) opts → NoDuplicateVoter opts.
Proof.
  intros Hnew. eapply Forall_impl; [exact Hnew|].
  intros o Ho. unfold distinct_positive. rewrite Ho. constructor.
Qed.

(** An id that stands once in a list: taking it out and putting it back at
    the end gives the same ids. *)
Lemma filter_none (P : Z → Prop) `{!∀ x, Decision (P x)} (l : list Z) :
  (∀ x, x ∈ l → ¬ P x) → filter P l = [].
Proof.
  induction l as [|x l IH]; intros Hnone; [done|].
  rewrite filter_cons, decide_False by (apply Hnone; left).
  apply IH. intros y Hy. apply Hnone. by right.
Qed.

Lemma filter_eq_once (uid : Z) (ids : list Z) :
  NoDup ids → uid ∈ ids → filter (λ id, ¬ id ≠ uid) ids = [uid].
Proof.
  induction 1 as [|x ids Hx Hnd IH]; intros Hin; [by apply elem_of_nil in Hin|].
  rewrite filter_cons. destruct (decide (x = uid)) as [->|Hne].
  - rewrite decide_True by tauto. f_equal.
    apply filter_none. intros y Hy Hneq. assert (y = uid) as -> by lia. done.
  - rewrite decide_False by tauto. apply IH.
    apply elem_of_cons in Hin as [->|Hin]; done.
Qed.

Lemma readd_same_ids (uid : Z) (ids : list Z) :
  0 < uid → distinct_positive ids → uid ∈ ids →
  filter (λ id, id ≠ uid) ids ++ [uid] ≡ₚ ids.
Proof.
  intros Hpos Hnd Hin.
  rewrite <- (filter_app_complement (λ id, id ≠ uid) ids) at 2.
  apply Permutation_app_head.
  assert (filter (λ id, ¬ id ≠ uid) ids
          = filter (λ id, ¬ id ≠ uid) (filter (λ id, id > 0) ids)) as ->.
  { rewrite list_filter_filter. apply list_filter_iff. intros x. lia. }
  rewrite filter_eq_once; [done|done|]. apply list_elem_of_filter. split; [lia|done].
Qed.

(** C9.  A run of named votes on a record no option of which holds a
    positive id twice (a new poll is one, [new_poll_NoDuplicateVoter])
    leads to a record with the same property: every option holds any
    positive id at most once.  A vote of a user for an
    option that already holds the user's id is a no-op on that option's
    ids: they are the same ids (the very same array on a multiple-choice
    poll; on a single-choice poll the id is taken out and put back at the
    end). *)
Theorem named_votes_never_duplicate (p : Poll) (es : list NamedVote) :
  NoDuplicateVoter (options p) →
  NoDuplicateVoter (options (applyVotes p es))
  ∧ ∀ k o uid, options p !! k = Some o → 0 < uid → uid ∈ voterIds o →
      (∀ now u ids, user_id u = uid → ids = [Z.of_nat k] →
         ∃ o', options (applyVote p (Answer now u ids)) !! k = Some o'
               ∧ voterIds o' ≡ₚ voterIds o
               ∧ (isMultipleChoice p = true → voterIds o' = voterIds o))
      ∧ ∃ o', options (applyVote p (AddVote (Z.of_nat k) uid)) !! k = Some o'
              ∧ voterIds o' ≡ₚ voterIds o
              ∧ (isMultipleChoice p = true → voterIds o' = voterIds o).
Proof.
  intros Hall. split.
  - unfold applyVotes. revert p Hall.
    induction es as [|e es IH]; intros p Hall; simpl; [done|].
    by apply IH, NoDuplicateVoter_applyVote.
  - intros k o uid Hk Hpos Hin.
    pose proof (Forall_lookup_1 _ _ _ _ Hall Hk) as Ho.
    pose proof (lookup_lt_Some _ _ _ Hk) as Hlt.
    split.
    + intros now u ids <- ->. simpl.
      destruct (isClosed p); [by exists o|].
      rewrite castVote_options. unfold recordVotes. simpl.
      destruct (isMultipleChoice p) eqn:Hm.
      * unfold recordVote. rewrite decide_True by lia. rewrite Nat2Z.id. simpl.
        rewrite Hk. rewrite decide_True by done. by exists o.
      * rewrite (recordVote_added false _ _ _ _ Hk) by (by left).
        eexists. split; [done|]. simpl. split; [|done].
        by apply readd_same_ids.
    + simpl. unfold addVote. destruct (isClosed p); [simpl; by exists o|].
      rewrite decide_False by lia. simpl. rewrite Nat2Z.id.
      destruct (isMultipleChoice p) eqn:Hm; simpl.
      * rewrite Hk. rewrite decide_True by done. by exists o.
      * rewrite list_lookup_fmap, Hk. simpl.
        rewrite decide_False by (rewrite list_elem_of_filter; tauto).
        rewrite list_lookup_insert_eq by (by rewrite length_fmap).
        eexists. split; [done|]. simpl. split; [|done].
        by apply readd_same_ids.
Qed.

Lemma named_votes_never_duplicate_witness :
  NoDuplicateVoter (options (applyVotes poll_555 repeated_votes))
  ∧ ∀ k o uid, options poll_555 !! k = Some o → 0 < uid → uid ∈ voterIds o →
      (∀ now u ids, user_id u = uid → ids = [Z.of_nat k] →
         ∃ o', options (applyVote poll_555 (Answer now u ids)) !! k = Some o'
               ∧ voterIds o' ≡ₚ voterIds o
               ∧ (isMultipleChoice poll_555 = true → voterIds o' = voterIds o))
      ∧ ∃ o', options (applyVote poll_555 (AddVote (Z.of_nat k) uid)) !! k = Some o'
              ∧ voterIds o' ≡ₚ voterIds o
              ∧ (isMultipleChoice poll_555 = true → voterIds o' = voterIds o).
Proof.
  apply (named_votes_never_duplicate poll_555 repeated_votes).
  apply (bool_decide_unpack _). by vm_compute.
Defined.

Example repeated_votes_result :
  options (applyVotes poll_555 repeated_votes)
  = [mkOption "A" [-1000001; -1000002; 777] 3; mkOption "B" [555] 1].
Proof. reflexivity. Qed.

(** * Further properties of the reconciliation code *)

(** ** What an increase allocates *)

Lemma option_eta (o : PollOption) :
  {| text := text o; voterIds := voterIds o; existingVotes := existingVotes o |} = o.
Proof. by destruct o. Qed.

Lemma descending_from_nil (start n : Z) : n ≤ 0 → descending_from start n = [].
Proof.
  intros Hn. unfold descending_from. by replace (Z.to_nat n) with 0%nat by lia.
Qed.

(** The push on one option, whatever the observed count. *)
Lemma pushOption_batch (i : nat) (n : Z) (o : PollOption) :
  pushOption i (Some n) o
  = {| text := text o;
       voterIds := voterIds o
                   ++ descending_from (batch_start i (voterIds o)) (n - existingVotes o);
       existingVotes := Z.max (existingVotes o) n |}.
Proof.
  destruct (decide (existingVotes o < n)) as [Hlt|Hge].
  - rewrite pushOption_increase by done. unfold set_existingVotes, set_voterIds. simpl.
    f_equal. lia.
  - rewrite pushOption_not_above by lia.
    rewrite descending_from_nil by lia. rewrite app_nil_r.
    replace (Z.max (existingVotes o) n) with (existingVotes o) by lia.
    by rewrite option_eta.
Qed.

(** X1.  On a snapshot push for a tracked poll, the option at an observed
    index keeps its text and its ids and gains a batch of ids at the end;
    the batch has as many ids as the observed count exceeds
    [existingVotes] (none when it does not), they are distinct, negative,
    not among the option's ids and below every negative id the option
    already holds; [existingVotes] becomes the larger of its old value and
    the observed count. *)
Theorem push_appends_fresh_batch
    (tp : TelegramPoll) (p : Poll) (observed : list (option Z))
    (j : nat) (n : Z) (o : PollOption) :
  isTracked p = true →
  tg_options tp = Some observed →
  observed !! j = Some (Some n) →
  options p !! j = Some o →
  ∃ batch,
    options (applySnapshot tp p) !! j
    = Some {| text := text o; voterIds := voterIds o ++ batch;
              existingVotes := Z.max (existingVotes o) n |}
    ∧ length batch = Z.to_nat (n - existingVotes o)
    ∧ NoDup batch
    ∧ ∀ y, y ∈ batch →
        y < 0 ∧ (y ∉ voterIds o) ∧ ∀ x, x ∈ voterIds o → x < 0 → y < x.
Proof.
  intros Htracked Hobs Hj Ho.
  exists (descending_from (batch_start j (voterIds o)) (n - existingVotes o)).
  split_and!.
  - rewrite applySnapshot_option, Htracked, Hobs, reconcile_lookup, Hj, Ho.
    by rewrite pushOption_batch.
  - apply descending_from_length.
  - apply descending_from_NoDup.
  - intros y Hy. destruct (push_batch_fresh j n o y Hy) as [Hneg Hfresh].
    split_and!; try done. intros x Hx Hxneg.
    apply elem_of_descending_from in Hy.
    destruct (batch_start_below j (voterIds o)) as [_ Hbelow].
    specialize (Hbelow x Hx Hxneg). lia.
Qed.

Lemma push_appends_fresh_batch_witness :
  let tp := mkTelegramPoll "5890654314309812234" (Some 5) (Some [Some 5; Some 0]) in
  let o := mkOption "A" [-1000001; -1000002; -1000003] 3 in
  ∃ batch,
    options (applySnapshot tp tracked_poll_3) !! 0%nat
    = Some {| text := text o; voterIds := voterIds o ++ batch;
              existingVotes := Z.max (existingVotes o) 5 |}
    ∧ length batch = Z.to_nat (5 - existingVotes o)
    ∧ NoDup batch
    ∧ ∀ y, y ∈ batch →
        y < 0 ∧ (y ∉ voterIds o) ∧ ∀ x, x ∈ voterIds o → x < 0 → y < x.
Proof.
  apply (push_appends_fresh_batch
           (mkTelegramPoll "5890654314309812234" (Some 5) (Some [Some 5; Some 0]))
           tracked_poll_3 [Some 5; Some 0] 0 5
           (mkOption "A" [-1000001; -1000002; -1000003] 3));
    reflexivity.
Defined.

(** ** Named voters under aggregate observations *)

Lemma filter_nonneg_app_negative (l batch : list Z) :
  (∀ y, y ∈ batch → y < 0) →
  filter (λ id, 0 ≤ id) (l ++ batch) = filter (λ id, 0 ≤ id) l.
Proof.
  intros Hneg. rewrite filter_app.
  rewrite (filter_none (λ id, 0 ≤ id) batch).
  - by rewrite app_nil_r.
  - intros y Hy. specialize (Hneg y Hy). lia.
Qed.

Lemma descending_negative (start n y : Z) :
  start < 0 → y ∈ descending_from start n → y < 0.
Proof. intros Hs Hy. apply elem_of_descending_from in Hy. lia. Qed.

Lemma start_negative (i : nat) (negs : list Z) :
  (∀ x, x ∈ negs → x < 0) →
  match negs with
  | [] => baseId i - 1
  | x :: r => Math_min x r - 1
  end < 0.
Proof.
  intros Hneg. destruct negs as [|x r]; [unfold baseId; lia|].
  destruct (Math_min_le x r) as [Hle _].
  assert (x < 0) by (apply Hneg; left). lia.
Qed.

Lemma pushOption_named (i : nat) (ob : option Z) (o : PollOption) :
  text (pushOption i ob o) = text o
  ∧ filter (λ id, 0 ≤ id) (voterIds (pushOption i ob o))
    = filter (λ id, 0 ≤ id) (voterIds o).
Proof.
  destruct ob as [n|]; [|done]. rewrite pushOption_batch. simpl. split; [done|].
  apply filter_nonneg_app_negative. intros y Hy.
  by apply (push_batch_fresh i n o) in Hy as [? _].
Qed.

Lemma scheduledOption_named (i : nat) (ob : option Z) (o : PollOption) :
  text (scheduledOption i ob o) = text o
  ∧ filter (λ id, 0 ≤ id) (voterIds (scheduledOption i ob o))
    = filter (λ id, 0 ≤ id) (voterIds o).
Proof.
  destruct ob as [n|]; [|done]. unfold scheduledOption.
  case_decide; [done|]. case_decide; [|done]. simpl. split; [done|].
  apply filter_nonneg_app_negative. intros y Hy.
  eapply descending_negative; [|exact Hy].
  apply start_negative. intros x Hx. apply list_elem_of_filter in Hx. tauto.
Qed.

Lemma refreshOption_named (i : nat) (ob : option Z) (o : PollOption) :
  text (refreshOption i ob o) = text o
  ∧ filter (λ id, 0 ≤ id) (voterIds (refreshOption i ob o))
    = filter (λ id, 0 ≤ id) (voterIds o).
Proof.
  destruct ob as [n|]; [|done]. unfold refreshOption.
  case_decide; [|done]. simpl. case_decide; [|case_decide]; simpl.
  - split; [done|]. apply filter_nonneg_app_negative. intros y Hy.
    eapply descending_negative; [|exact Hy].
    apply start_negative. intros x Hx. apply list_elem_of_filter in Hx. tauto.
  - split; [done|]. rewrite list_filter_filter. apply list_filter_iff. intros x.
    split; [tauto|]. intros Hx. split; [done|]. intros Hin.
    apply take_elem_of, js_sort_elem_of, list_elem_of_filter in Hin. lia.
  - done.
Qed.

Lemma reconcile_pointwise (f : nat → option Z → PollOption → PollOption)
    (R : PollOption → PollOption → Prop) (observed : list (option Z))
    (opts : list PollOption) (j : nat) (o : PollOption) :
  (∀ i ob o', R o' (f i ob o')) → R o o →
  opts !! j = Some o →
  ∃ o', reconcile f 0 observed opts !! j = Some o' ∧ R o o'.
Proof.
  intros Hf Hrefl Hj. rewrite reconcile_lookup, Hj.
  destruct (observed !! j) as [ob|]; eexists; (split; [done|]); auto.
Qed.

(** X2.  No aggregate path touches a named voter: after a snapshot push,
    a tick of the periodic refresh or the [refreshpoll] command, every
    option of the record has its text and exactly the non-negative ids it
    had, in their order; ids are only added or removed among the negative
    ones. *)
Theorem aggregates_keep_named_voters
    (now : Z) (tp : TelegramPoll) (p : Poll) (j : nat) (o : PollOption) :
  options p !! j = Some o →
  ∀ p', p' = applySnapshot tp p ∨ p' = afterTick now tp p ∨ p' = applyRefresh now tp p →
    ∃ o', options p' !! j = Some o'
          ∧ text o' = text o
          ∧ filter (λ id, 0 ≤ id) (voterIds o') = filter (λ id, 0 ≤ id) (voterIds o).
Proof.
  intros Hj p' Hp'.
  set (R := λ a b : PollOption,
              text b = text a
              ∧ filter (λ id, 0 ≤ id) (voterIds b) = filter (λ id, 0 ≤ id) (voterIds a)).
  assert (R o o) as Hrefl by done.
  destruct Hp' as [->|[->| ->]].
  - rewrite applySnapshot_option.
    destruct (isTracked p); [|by exists o].
    destruct (tg_options tp) as [observed|]; [|by exists o].
    apply (reconcile_pointwise pushOption R); [|done|done].
    intros i ob o'. apply pushOption_named.
  - unfold afterTick, updateTrackedPoll.
    destruct (tg_total_voter_count tp); [|by exists o].
    case_decide; [by exists o|].
    destruct (tg_options tp) as [observed|]; simpl; [|by exists o].
    apply (reconcile_pointwise scheduledOption R); [|done|done].
    intros i ob o'. apply scheduledOption_named.
  - rewrite applyRefresh_option.
    destruct (tg_options tp) as [observed|]; [|by exists o].
    apply (reconcile_pointwise refreshOption R); [|done|done].
    intros i ob o'. apply refreshOption_named.
Qed.

Lemma aggregates_keep_named_voters_witness :
  let tp := mkTelegramPoll "5890654314309812555" (Some 1) (Some [Some 1; Some 4]) in
  let kept p' :=
    ∃ o', options p' !! 0%nat = Some o'
          ∧ text o' = "A"
          ∧ filter (λ id, 0 ≤ id) (voterIds o') = [555] in
  kept (applySnapshot tp poll_555)
  ∧ kept (afterTick 20 tp poll_555)
  ∧ kept (applyRefresh 20 tp poll_555).
Proof.
  pose proof (aggregates_keep_named_voters 20
                (mkTelegramPoll "5890654314309812555" (Some 1) (Some [Some 1; Some 4]))
                poll_555 0 (mkOption "A" [555; -1000001; -1000002] 3) eq_refl) as H.
  repeat split; apply H; auto.
Defined.

(** ** The same observation twice *)

Lemma pushOption_idem (i : nat) (ob : option Z) (o : PollOption) :
  pushOption i ob (pushOption i ob o) = pushOption i ob o.
Proof.
  destruct ob as [n|]; [|done].
  destruct (decide (existingVotes o < n)) as [Hlt|Hge].
  - rewrite (pushOption_increase i n o) by done. by rewrite pushOption_not_above.
  - by rewrite !(pushOption_not_above i n o) by lia.
Qed.

Lemma refreshOption_existingVotes (i : nat) (n : Z) (o : PollOption) :
  existingVotes (refreshOption i (Some n) o) = n.
Proof.
  unfold refreshOption. rewrite or0_id. case_decide as Hne; [done|].
  destruct (decide (n = existingVotes o)); [done|contradiction].
Qed.

Lemma refreshOption_same_count (i : nat) (n : Z) (o : PollOption) :
  existingVotes o = n → refreshOption i (Some n) o = o.
Proof.
  intros Hev. unfold refreshOption. rewrite or0_id.
  by rewrite decide_False by (intros Hc; by apply Hc).
Qed.

Lemma refreshOption_idem (i : nat) (ob : option Z) (o : PollOption) :
  refreshOption i ob (refreshOption i ob o) = refreshOption i ob o.
Proof.
  destruct ob as [n|]; [|done].
  apply refreshOption_same_count, refreshOption_existingVotes.
Qed.

Lemma reconcile_idem (f : nat → option Z → PollOption → PollOption)
    (i : nat) (observed : list (option Z)) (opts : list PollOption) :
  (∀ i ob o, f i ob (f i ob o) = f i ob o) →
  reconcile f i observed (reconcile f i observed opts) = reconcile f i observed opts.
Proof.
  intros Hf. revert i opts.
  induction observed as [|ob observed IH]; intros i [|o opts]; simpl; try done.
  by rewrite Hf, IH.
Qed.

Lemma applySnapshot_idem (tp : TelegramPoll) (p : Poll) :
  applySnapshot tp (applySnapshot tp p) = applySnapshot tp p.
Proof.
  unfold applySnapshot. simpl. destruct (isTracked p) eqn:Ht; simpl.
  - destruct (tg_options tp) as [observed|]; simpl; rewrite Ht; [|done].
    unfold set_options. simpl. by rewrite reconcile_idem by apply pushOption_idem.
  - by rewrite Ht.
Qed.

Lemma applyRefresh_idem (now : Z) (tp : TelegramPoll) (p : Poll) :
  applyRefresh now tp (applyRefresh now tp p) = applyRefresh now tp p.
Proof.
  unfold applyRefresh. destruct (tg_options tp) as [observed|]; simpl; [|done].
  unfold set_updatedAt, set_options. simpl.
  by rewrite reconcile_idem by apply refreshOption_idem.
Qed.

Lemma save_save (p : Poll) (db : list Poll) : save p (save p db) = save p db.
Proof.
  unfold save. rewrite <- list_fmap_compose. apply list_fmap_ext.
  intros i q _. simpl. by repeat case_decide.
Qed.

(** A query that reads fields the saved record shares with the stored one
    finds, after the save, the saved record where it found the stored
    one. *)
Lemma findOne_save (P : Poll → Prop) `{!∀ p, Decision (P p)}
    (p p' : Poll) (db : list Poll) :
  NoDup (_id <$> db) → p ∈ db → _id p' = _id p → (P p ↔ P p') →
  findOne P (save p' db)
  = (λ q, if decide (_id q = _id p') then p' else q) <$> findOne P db.
Proof.
  intros Hnd Hin Hid HP. unfold findOne, save.
  assert (∀ q, q ∈ db → (P (if decide (_id q = _id p') then p' else q) ↔ P q)) as Hext.
  { intros q Hq. case_decide as Heq; [|done].
    assert (q = p) as -> by (eapply unique_id; eauto; congruence). tauto. }
  clear Hnd Hin. induction db as [|q db IH]; [done|].
  rewrite fmap_cons, !filter_cons.
  assert (q ∈ q :: db) as Hq by left. specialize (Hext q Hq) as Hq'.
  assert (∀ r, r ∈ db → (P (if decide (_id r = _id p') then p' else r) ↔ P r)) as Hext'
    by (intros r Hr; apply Hext; by right).
  destruct (decide (P q)) as [HPq|HPq].
  - rewrite decide_True by tauto. done.
  - rewrite decide_False by tauto. by apply IH.
Qed.

Lemma findByPollId_save (id : string) (p p' : Poll) (db : list Poll) :
  NoDup (_id <$> db) → findByPollId id db = Some p →
  _id p' = _id p → pollId p' = pollId p → originalPollId p' = originalPollId p →
  findByPollId id (save p' db) = Some p'.
Proof.
  intros Hnd Hfind Hid Hpid Hoid.
  pose proof (findByPollId_elem_of _ _ _ Hfind) as Hin.
  unfold findByPollId in *.
  rewrite (findOne_save (λ q, pollId q = Some id) p p') by (try done; by rewrite Hpid).
  rewrite (findOne_save (λ q, originalPollId q = Some id) p p')
    by (try done; by rewrite Hoid).
  destruct (findOne (λ q, pollId q = Some id) db) as [q|]; simpl.
  - injection Hfind as ->. by rewrite decide_True.
  - rewrite Hfind. simpl. by rewrite decide_True.
Qed.

Lemma applySnapshot_fields (tp : TelegramPoll) (p : Poll) :
  pollId (applySnapshot tp p) = pollId p
  ∧ originalPollId (applySnapshot tp p) = originalPollId p
  ∧ isClosed (applySnapshot tp p) = isClosed p
  ∧ isTracked (applySnapshot tp p) = isTracked p.
Proof.
  unfold applySnapshot. simpl.
  destruct (isTracked p) eqn:Ht; [destruct (tg_options tp)|]; simpl; by rewrite ?Ht.
Qed.

(** X3.  Idempotence of the snapshot push on a store with unique record
    ids: handling the same poll update twice in a row leaves the store as
    the first handling left it (no new placeholder, no other write). *)
Theorem push_twice_is_push_once (pollData : option TelegramPoll) (db : list Poll) :
  NoDup (_id <$> db) →
  pollHandler pollData (pollHandler pollData db) = pollHandler pollData db.
Proof.
  intros Hnd. destruct pollData as [tp|]; [|done].
  destruct (decide (tg_id tp = "")) as [Hid|Hid];
    [unfold pollHandler; by rewrite !decide_True|].
  destruct (findByPollId (tg_id tp) db) as [p|] eqn:Hfind;
    [|unfold pollHandler; by rewrite !decide_False, !Hfind, ?decide_False, ?Hfind].
  destruct (isClosed p) eqn:Hopen.
  { assert (pollHandler (Some tp) db = db) as Heq
      by (unfold pollHandler; by rewrite decide_False, Hfind, Hopen).
    by rewrite !Heq. }
  destruct (applySnapshot_fields tp p) as (Hpid & Hoid & Hcl & _).
  rewrite (pollHandler_open tp db p) by done.
  rewrite (pollHandler_open tp _ (applySnapshot tp p)).
  - by rewrite applySnapshot_idem, save_save.
  - done.
  - apply (findByPollId_save _ p); auto using applySnapshot_id.
  - by rewrite Hcl.
Qed.

Lemma push_twice_is_push_once_witness :
  let pollData :=
    Some (mkTelegramPoll "5890654314309812234" (Some 5) (Some [Some 5; Some 0])) in
  pollHandler pollData (pollHandler pollData [tracked_poll_3; untracked_poll])
  = pollHandler pollData [tracked_poll_3; untracked_poll].
Proof.
  apply (push_twice_is_push_once
           (Some (mkTelegramPoll "5890654314309812234" (Some 5) (Some [Some 5; Some 0])))
           [tracked_poll_3; untracked_poll]).
  apply (bool_decide_unpack _). by vm_compute.
Defined.

Lemma applyRefresh_fields (now : Z) (tp : TelegramPoll) (p : Poll) :
  _id (applyRefresh now tp p) = _id p
  ∧ chatId (applyRefresh now tp p) = chatId p
  ∧ messageId (applyRefresh now tp p) = messageId p
  ∧ isTracked (applyRefresh now tp p) = isTracked p.
Proof. unfold applyRefresh. by destruct (tg_options tp). Qed.

(** X4.  Idempotence of the [refreshpoll] command on a store with unique
    record ids: the same command on the same replied-to poll, run twice,
    leaves the store as the first run left it; the second run neither
    adds nor removes an id. *)
Theorem refresh_twice_is_refresh_once
    (now chat message_id : Z) (tp : TelegramPoll) (db : list Poll) :
  NoDup (_id <$> db) →
  refreshpoll now chat message_id tp (refreshpoll now chat message_id tp db)
  = refreshpoll now chat message_id tp db.
Proof.
  intros Hnd.
  destruct (findOne (λ q, chatId q = chat ∧ messageId q = message_id) db)
    as [p|] eqn:Hfind; [|unfold refreshpoll; by rewrite !Hfind, ?Hfind].
  destruct (isTracked p) eqn:Ht.
  2:{ assert (refreshpoll now chat message_id tp db = db) as Heq
        by (unfold refreshpoll; by rewrite Hfind, Ht).
      by rewrite !Heq. }
  destruct (applyRefresh_fields now tp p) as (Hid & Hc & Hm & Htr).
  pose proof (findOne_Some _ _ _ Hfind) as [Hin _].
  rewrite (refreshpoll_tracked now chat message_id tp db p) by done.
  rewrite (refreshpoll_tracked now chat message_id tp _ (applyRefresh now tp p)).
  - by rewrite applyRefresh_idem, save_save.
  - rewrite (findOne_save (λ q, chatId q = chat ∧ messageId q = message_id)
               p (applyRefresh now tp p)) by (try done; by rewrite Hc, Hm).
    rewrite Hfind. simpl. by rewrite decide_True.
  - by rewrite Htr.
Qed.

Lemma refresh_twice_is_refresh_once_witness :
  let tp := mkTelegramPoll "5890654314309812234" (Some 1) (Some [Some 1; Some 2]) in
  refreshpoll 20 (-100200) 7 tp (refreshpoll 20 (-100200) 7 tp [tracked_poll_3; untracked_poll])
  = refreshpoll 20 (-100200) 7 tp [tracked_poll_3; untracked_poll].
Proof.
  apply (refresh_twice_is_refresh_once 20 (-100200) 7
           (mkTelegramPoll "5890654314309812234" (Some 1) (Some [Some 1; Some 2]))
           [tracked_poll_3; untracked_poll]).
  apply (bool_decide_unpack _). by vm_compute.
Defined.

(** ** Runs of snapshot pushes *)

Lemma reconcile_Forall (f : nat → option Z → PollOption → PollOption)
    (P : PollOption → Prop) (i : nat) (observed : list (option Z))
    (opts : list PollOption) :
  (∀ i ob o, P o → P (f i ob o)) → Forall P opts → Forall P (reconcile f i observed opts).
Proof.
  intros Hf Hall. revert i observed.
  induction Hall as [|o opts Ho Hall IH]; intros i [|ob observed]; simpl;
    try (by constructor).
  constructor; [by apply Hf|apply IH].
Qed.

Lemma pushOption_counted (i : nat) (ob : option Z) (o : PollOption) :
  counted o → counted (pushOption i ob o).
Proof.
  intros [Hlen Hnd]. split; [|by apply pushOption_NoDup].
  destruct ob as [n|]; [|done]. rewrite pushOption_batch. simpl.
  rewrite length_app, descending_from_length. lia.
Qed.

(** X5.  On a record every option of which holds exactly [existingVotes]
    ids and no negative id twice (a new poll is one), any run of snapshot
    pushes leads to a record with the same property: the placeholders an
    option holds after the run are as many as its [existingVotes] and all
    different. *)
Theorem pushes_keep_options_counted (p : Poll) (tps : list TelegramPoll) :
  Forall counted (options p) →
  Forall counted (options (applySnapshots p tps)).
Proof.
  unfold applySnapshots. revert p.
  induction tps as [|tp tps IH]; intros p Hall; simpl; [done|].
  apply IH. unfold applySnapshot. simpl.
  destruct (isTracked p); [|done].
  destruct (tg_options tp) as [observed|]; [|done]. simpl.
  apply reconcile_Forall; [|done]. intros i ob o. apply pushOption_counted.
Qed.

Lemma pushes_keep_options_counted_witness :
  Forall counted
    (options (applySnapshots tracked_poll_3
                [mkTelegramPoll "5890654314309812234" (Some 5) (Some [Some 5; Some 0]);
                 mkTelegramPoll "5890654314309812234" (Some 4) (Some [Some 2; Some 2]);
                 mkTelegramPoll "5890654314309812234" (Some 9) (Some [Some 6; Some 3])])).
Proof.
  apply (pushes_keep_options_counted tracked_poll_3).
  repeat constructor; simpl; try (apply (bool_decide_unpack _); by vm_compute).
Defined.

(** ** A tick of the periodic refresh on one record *)

Lemma scheduledOption_bounds (i : nat) (ob : option Z) (o : PollOption) :
  existingVotes o ≤ existingVotes (scheduledOption i ob o)
  ∧ existingVotes (scheduledOption i ob o) ≤ Z.max (existingVotes o) 10000.
Proof.
  destruct ob as [n|]; [|simpl; lia]. unfold scheduledOption. rewrite or0_id.
  case_decide; [lia|]. case_decide; simpl; lia.
Qed.

Lemma scheduledOption_suspicious (i : nat) (n : Z) (o : PollOption) :
  n < 0 ∨ n > 10000 → scheduledOption i (Some n) o = o.
Proof. intros Hn. unfold scheduledOption. by rewrite decide_True. Qed.

(** X6.  Sanity ceiling of the periodic refresh: an option observed with
    a negative count or a count above 10000 is left exactly as it was,
    whatever the other options of the same snapshot do; and no tick lowers
    an option's [existingVotes] or raises it above the larger of its old
    value and 10000. *)
Theorem tick_skips_suspicious_counts
    (now : Z) (tp : TelegramPoll) (p : Poll) (j : nat) (o : PollOption) :
  options p !! j = Some o →
  ∃ o', options (afterTick now tp p) !! j = Some o'
        ∧ existingVotes o ≤ existingVotes o'
        ∧ existingVotes o' ≤ Z.max (existingVotes o) 10000
        ∧ ∀ observed n, tg_options tp = Some observed →
            observed !! j = Some (Some n) → n < 0 ∨ n > 10000 → o' = o.
Proof.
  intros Hj. unfold afterTick, updateTrackedPoll.
  assert (∃ o', Some o = Some o' ∧ existingVotes o ≤ existingVotes o'
                ∧ existingVotes o' ≤ Z.max (existingVotes o) 10000
                ∧ ∀ observed n, tg_options tp = Some observed →
                    observed !! j = Some (Some n) → n < 0 ∨ n > 10000 → o' = o) as Hsame
    by (exists o; split_and!; [done|lia|lia|done]).
  destruct (tg_total_voter_count tp); simpl; [|by rewrite Hj].
  case_decide; simpl; [by rewrite Hj|].
  destruct (tg_options tp) as [observed|] eqn:Hobs; simpl; [|by rewrite Hj].
  rewrite reconcile_lookup, Hj.
  destruct (observed !! j) as [ob|] eqn:Hobj; [|done].
  eexists. split; [done|].
  destruct (scheduledOption_bounds (0 + j) ob o) as [Hlo Hhi].
  split_and!; try done.
  intros observed' n [= <-] Hn Hbad. rewrite Hobj in Hn. injection Hn as ->.
  by apply scheduledOption_suspicious.
Qed.

Lemma tick_skips_suspicious_counts_witness :
  let tp := mkTelegramPoll "5890654314309812234" (Some 9) (Some [Some 20000; Some 4]) in
  ∃ o', options (afterTick 20 tp tracked_poll_3) !! 0%nat = Some o'
        ∧ 3 ≤ existingVotes o'
        ∧ existingVotes o' ≤ Z.max 3 10000
        ∧ ∀ observed n, tg_options tp = Some observed →
            observed !! 0%nat = Some (Some n) → n < 0 ∨ n > 10000
            → o' = mkOption "A" [-1000001; -1000002; -1000003] 3.
Proof.
  apply (tick_skips_suspicious_counts 20
           (mkTelegramPoll "5890654314309812234" (Some 9) (Some [Some 20000; Some 4]))
           tracked_poll_3 0 (mkOption "A" [-1000001; -1000002; -1000003] 3)).
  reflexivity.
Defined.

(** X7.  A tick changes a record only when the fetched total is a number
    that differs from the stored one; the record it then leaves carries
    the fetched total, so a further tick with the same fetched poll, at
    whatever time, changes nothing. *)
Theorem tick_guard_and_idempotence (now now' : Z) (tp : TelegramPoll) (p : Poll) :
  (tg_total_voter_count tp = None ∨ tg_total_voter_count tp = total_voter_count p →
   afterTick now tp p = p)
  ∧ (afterTick now tp p ≠ p →
     total_voter_count (afterTick now tp p) = tg_total_voter_count tp
     ∧ updatedAt (afterTick now tp p) = now)
  ∧ afterTick now' tp (afterTick now tp p) = afterTick now tp p.
Proof.
  unfold afterTick, updateTrackedPoll.
  destruct (tg_total_voter_count tp) as [total|].
  - destruct (decide (Some total = total_voter_count p)) as [Heq|Hne]; simpl.
    + split_and!; [done|done|]. by rewrite decide_True.
    + split_and!.
      * intros [Hc|Hc]; congruence.
      * intros _. by destruct (tg_options tp).
      * rewrite decide_True; [done|]. by destruct (tg_options tp).
  - simpl. by split_and!.
Qed.

(** ** The batch of a tick *)

Lemma trackedBatch_elem_of (db : list Poll) (q : Poll) :
  q ∈ trackedBatch db → q ∈ db ∧ isTracked q = true ∧ isClosed q = false.
Proof.
  unfold trackedBatch. intros Hq.
  apply take_elem_of, js_sort_elem_of, list_elem_of_filter in Hq. tauto.
Qed.

Lemma tick_fold_lookup (fetch : Poll → option TelegramPoll) (now : Z)
    (batch db : list Poll) (k : nat) (p : Poll) :
  (∀ q, q ∈ batch → _id p ≠ _id q) → db !! k = Some p →
  foldl (λ db' poll,
           match fetch poll with
           | None => db'
           | Some telegramPoll =>
             match updateTrackedPoll now telegramPoll poll with
             | None => db'
             | Some poll' => save poll' db'
             end
           end)
        db batch !! k = Some p.
Proof.
  revert db. induction batch as [|q batch IH]; intros db Hbatch Hk; simpl; [done|].
  apply IH.
  - intros q' Hq'. apply Hbatch. by right.
  - destruct (fetch q) as [tp|]; [|done].
    destruct (updateTrackedPoll now tp q) as [q'|] eqn:Hq'; [|done].
    apply save_lookup_ne; [done|].
    rewrite (updateTrackedPoll_id _ _ _ _ Hq'). apply Hbatch. by left.
Qed.

Lemma tick_fold_length (fetch : Poll → option TelegramPoll) (now : Z)
    (batch db : list Poll) :
  length (foldl (λ db' poll,
                   match fetch poll with
                   | None => db'
                   | Some telegramPoll =>
                     match updateTrackedPoll now telegramPoll poll with
                     | None => db'
                     | Some poll' => save poll' db'
                     end
                   end)
                db batch) = length db.
Proof.
  revert db. induction batch as [|q batch IH]; intros db; simpl; [done|].
  rewrite IH. destruct (fetch q) as [tp|]; [|done].
  destruct (updateTrackedPoll now tp q); [|done].
  unfold save. by rewrite length_fmap.
Qed.

(** X8.  A tick of the periodic refresh works on a batch of at most 50
    records, all of them open tracked records of the store; the store
    keeps its length, and every record whose [_id] is not the [_id] of a
    record of the batch is left, at its place, exactly as it was. *)
Theorem tick_writes_only_its_batch
    (fetch : Poll → option TelegramPoll) (now : Z) (db : list Poll) :
  (length (trackedBatch db) ≤ 50)%nat
  ∧ (∀ q, q ∈ trackedBatch db → q ∈ db ∧ isTracked q = true ∧ isClosed q = false)
  ∧ length (updateTrackedPolls fetch now db) = length db
  ∧ ∀ k p, db !! k = Some p → _id p ∉ (_id <$> trackedBatch db) →
      updateTrackedPolls fetch now db !! k = Some p.
Proof.
  split_and!.
  - unfold trackedBatch. rewrite length_take. unfold MAX_POLLS_TO_CHECK. lia.
  - apply trackedBatch_elem_of.
  - apply tick_fold_length.
  - intros k p Hk Hid. apply tick_fold_lookup; [|done].
    intros q Hq Heq. apply Hid. rewrite Heq. apply list_elem_of_fmap. by exists q.
Qed.

(** X9.  The batch is made of the least recently updated open tracked
    records: the open tracked records split (up to order) into the batch
    and a rest, no record of the batch was updated later than a record of
    the rest, and the rest is empty unless the batch holds 50 records. *)
Theorem tick_takes_the_stalest (db : list Poll) :
  ∃ rest,
    trackedBatch db ++ rest ≡ₚ filter (λ p, isTracked p = true ∧ isClosed p = false) db
    ∧ (∀ q r, q ∈ trackedBatch db → r ∈ rest → updatedAt q ≤ updatedAt r)
    ∧ (rest ≠ [] → length (trackedBatch db) = 50%nat).
Proof.
  unfold trackedBatch.
  set (sorted := js_sort (λ a b, updatedAt a - updatedAt b) _).
  exists (drop MAX_POLLS_TO_CHECK sorted). split_and!.
  - rewrite take_drop. apply js_sort_perm.
  - intros q r Hq Hr.
    assert (StronglySorted (before (λ a b, updatedAt a - updatedAt b)) sorted) as Hs
      by (apply js_sort_sorted; unfold before; intros; lia).
    rewrite <- (take_drop MAX_POLLS_TO_CHECK sorted) in Hs.
    pose proof (StronglySorted_app_1_elem_of _ _ _ _ _ Hs Hq Hr) as Hle.
    unfold before in Hle. lia.
  - intros Hrest. rewrite length_take.
    destruct (decide (length sorted ≤ MAX_POLLS_TO_CHECK)%nat) as [Hle|Hgt].
    + exfalso. apply Hrest. by apply drop_ge.
    + unfold MAX_POLLS_TO_CHECK in *. lia.
Qed.

(** ** What no handler writes *)

#[local] Instance sameIdentity_equiv : Equivalence sameIdentity.
Proof.
  split.
  - intros p. by unfold sameIdentity.
  - intros p q H. unfold sameIdentity in *. naive_solver.
  - intros p q r H1 H2. unfold sameIdentity in *.
    destruct H1 as (?&?&?&?&?&?&?&?&?), H2 as (?&?&?&?&?&?&?&?&?).
    split_and!; congruence.
Qed.

Lemma reconcile_text (f : nat → option Z → PollOption → PollOption)
    (i : nat) (observed : list (option Z)) (opts : list PollOption) :
  (∀ i ob o, text (f i ob o) = text o) →
  text <$> reconcile f i observed opts = text <$> opts.
Proof.
  intros Hf. revert i opts.
  induction observed as [|ob observed IH]; intros i [|o opts]; simpl; try done.
  by rewrite Hf, IH.
Qed.

Lemma recordVote_text (multiple : bool) (uid : Z) (opts : list PollOption) (idx : Z) :
  text <$> recordVote multiple uid opts idx = text <$> opts.
Proof.
  unfold recordVote. case_decide; [|done].
  set (opts1 := if negb multiple then clearVotes uid opts else opts).
  assert (text <$> opts1 = text <$> opts) as Ht1.
  { unfold opts1. destruct multiple; simpl; [done|].
    unfold clearVotes. rewrite <- list_fmap_compose. by apply list_fmap_ext. }
  destruct (opts1 !! Z.to_nat idx) as [o|] eqn:Hk; [|done].
  case_decide; [done|]. rewrite list_fmap_insert, <- Ht1.
  apply list_insert_id. rewrite list_lookup_fmap, Hk. simpl. by case_decide.
Qed.

Lemma recordVotes_text (multiple : bool) (uid : Z) (ids : list Z)
    (opts : list PollOption) :
  text <$> recordVotes multiple uid ids opts = text <$> opts.
Proof.
  unfold recordVotes. case_decide.
  - clear H. revert opts. induction ids as [|idx ids IH]; intros opts; simpl; [done|].
    by rewrite IH, recordVote_text.
  - rewrite <- list_fmap_compose. apply list_fmap_ext. intros i o _. simpl.
    unfold retractVote. destruct (bool_decide _); [case_decide|]; done.
Qed.

Lemma applySnapshot_sameIdentity (tp : TelegramPoll) (p : Poll) :
  sameIdentity p (applySnapshot tp p).
Proof.
  unfold sameIdentity, applySnapshot. simpl.
  destruct (isTracked p) eqn:Ht; [|by rewrite ?Ht].
  destruct (tg_options tp) as [observed|]; simpl; rewrite ?Ht; split_and!; try done.
  symmetry. apply reconcile_text. intros i ob o. apply pushOption_named.
Qed.

Lemma castVote_sameIdentity (now : Z) (u : User) (ids : list Z) (p : Poll) :
  sameIdentity p (castVote now u ids p).
Proof.
  unfold sameIdentity, castVote, recount. case_decide; simpl; split_and!; try done;
    by rewrite recordVotes_text.
Qed.

Lemma applyRefresh_sameIdentity (now : Z) (tp : TelegramPoll) (p : Poll) :
  sameIdentity p (applyRefresh now tp p).
Proof.
  unfold sameIdentity, applyRefresh.
  destruct (tg_options tp) as [observed|]; simpl; split_and!; try done.
  symmetry. apply reconcile_text. intros i ob o. apply refreshOption_named.
Qed.

Lemma updateTrackedPoll_sameIdentity (now : Z) (tp : TelegramPoll) (p p' : Poll) :
  updateTrackedPoll now tp p = Some p' → sameIdentity p p'.
Proof.
  unfold updateTrackedPoll. destruct (tg_total_voter_count tp); [|done].
  case_decide; [done|]. intros [= <-]. unfold sameIdentity.
  destruct (tg_options tp) as [observed|]; simpl; split_and!; try done.
  symmetry. apply reconcile_text. intros i ob o. apply scheduledOption_named.
Qed.

Lemma save_sameIdentity (db db' : list Poll) (p p' : Poll) :
  NoDup (_id <$> db) → Forall2 sameIdentity db db' →
  p ∈ db → sameIdentity p p' →
  Forall2 sameIdentity db (save p' db').
Proof.
  intros Hnd Hall Hin Hp. unfold save. apply Forall2_fmap_r.
  apply Forall2_same_length_lookup_2; [by eapply Forall2_length|].
  intros i q q' Hq Hq'.
  pose proof (Forall2_lookup_lr _ _ _ _ _ _ Hall Hq Hq') as Hqq'.
  simpl. case_decide as Hid; [|done].
  assert (q = p) as ->; [|done].
  eapply unique_id; eauto using list_elem_of_lookup_2.
  destruct Hqq' as (Hi & _), Hp as (Hi' & _). congruence.
Qed.

Lemma Forall2_sameIdentity_refl (db : list Poll) : Forall2 sameIdentity db db.
Proof. apply Forall_Forall2_diag, Forall_forall. intros p _. reflexivity. Qed.

Lemma tick_fold_sameIdentity (fetch : Poll → option TelegramPoll) (now : Z)
    (batch db db' : list Poll) :
  NoDup (_id <$> db) → (∀ q, q ∈ batch → q ∈ db) → Forall2 sameIdentity db db' →
  Forall2 sameIdentity db
    (foldl (λ db'' poll,
              match fetch poll with
              | None => db''
              | Some telegramPoll =>
                match updateTrackedPoll now telegramPoll poll with
                | None => db''
                | Some poll' => save poll' db''
                end
              end)
           db' batch).
Proof.
  intros Hnd. revert db'.
  induction batch as [|q batch IH]; intros db' Hbatch Hall; simpl; [done|].
  apply IH; [intros q' Hq'; apply Hbatch; by right|].
  destruct (fetch q) as [tp|]; [|done].
  destruct (updateTrackedPoll now tp q) as [q'|] eqn:Hq'; [|done].
  apply (save_sameIdentity _ _ q); eauto using updateTrackedPoll_sameIdentity.
  apply Hbatch. by left.
Qed.

(** X10.  No handler rewrites what identifies a record or an option: on a
    store with unique record ids, after the snapshot push, the named
    vote, the [refreshpoll] command or a tick of the periodic refresh,
    the store holds at each place a record with the [_id], [pollId],
    [originalPollId], [chatId], [messageId], [isMultipleChoice],
    [isClosed] and [isTracked] it held and with the same option texts in
    the same order.  In particular record ids stay unique, no poll is
    reopened and no option is added, dropped or reordered. *)
Theorem handlers_keep_identities (regexTest : string → string → bool) (db : list Poll) :
  NoDup (_id <$> db) →
  (∀ pollData, Forall2 sameIdentity db (pollHandler pollData db))
  ∧ (∀ now answer, Forall2 sameIdentity db (pollAnswerHandler regexTest now answer db))
  ∧ (∀ now chat message_id tp,
       Forall2 sameIdentity db (refreshpoll now chat message_id tp db))
  ∧ (∀ fetch now, Forall2 sameIdentity db (updateTrackedPolls fetch now db)).
Proof.
  intros Hnd. pose proof (Forall2_sameIdentity_refl db) as Hrefl. split_and!.
  - intros [tp|]; [|done]. unfold pollHandler. case_decide; [done|].
    destruct (findByPollId (tg_id tp) db) as [p|] eqn:Hfind; [|done].
    destruct (isClosed p); [done|].
    apply (save_sameIdentity _ _ p);
      eauto using findByPollId_elem_of, applySnapshot_sameIdentity.
  - intros now [answer|]; [|done]. unfold pollAnswerHandler.
    destruct (user answer) as [u|]; [|done]. case_decide; [done|].
    destruct (resolvePoll regexTest (poll_id answer) db) as [p|] eqn:Hfind; [|done].
    destruct (isClosed p); [done|].
    apply (save_sameIdentity _ _ p);
      eauto using resolvePoll_elem_of, castVote_sameIdentity.
  - intros now chat message_id tp. unfold refreshpoll.
    destruct (findOne _ db) as [p|] eqn:Hfind; [|done].
    destruct (isTracked p); simpl; [|done].
    apply findOne_Some in Hfind as [Hin _].
    apply (save_sameIdentity _ _ p); eauto using applyRefresh_sameIdentity.
  - intros fetch now. apply tick_fold_sameIdentity; [done| |done].
    intros q Hq. by apply trackedBatch_elem_of in Hq as [? _].
Qed.

Lemma handlers_keep_identities_witness :
  (∀ pollData, Forall2 sameIdentity [tracked_poll_3; untracked_poll]
                 (pollHandler pollData [tracked_poll_3; untracked_poll]))
  ∧ (∀ now answer,
       Forall2 sameIdentity [tracked_poll_3; untracked_poll]
         (pollAnswerHandler includes now answer [tracked_poll_3; untracked_poll]))
  ∧ (∀ now chat message_id tp,
       Forall2 sameIdentity [tracked_poll_3; untracked_poll]
         (refreshpoll now chat message_id tp [tracked_poll_3; untracked_poll]))
  ∧ (∀ fetch now,
       Forall2 sameIdentity [tracked_poll_3; untracked_poll]
         (updateTrackedPolls fetch now [tracked_poll_3; untracked_poll])).
Proof.
  apply (handlers_keep_identities includes [tracked_poll_3; untracked_poll]).
  apply (bool_decide_unpack _). by vm_compute.
Defined.

(** ** Records the handlers leave alone *)

Lemma flag_id_ne (db : list Poll) (p q : Poll) :
  NoDup (_id <$> db) → p ∈ db → q ∈ db → p ≠ q → _id p ≠ _id q.
Proof. intros Hnd Hp Hq Hne Hid. apply Hne. by eapply unique_id. Qed.

(** X11.  On a store with unique record ids, a closed record is left at
    its place exactly as it is by the snapshot push, by the named vote
    and by a tick of the periodic refresh, whatever the event; a record
    that is not tracked is left exactly as it is by the [refreshpoll]
    command and by a tick. *)
Theorem closed_and_untracked_records_are_left_alone
    (regexTest : string → string → bool) (db : list Poll) (k : nat) (p : Poll) :
  NoDup (_id <$> db) →
  db !! k = Some p →
  (isClosed p = true →
     (∀ pollData, pollHandler pollData db !! k = Some p)
     ∧ (∀ now answer, pollAnswerHandler regexTest now answer db !! k = Some p)
     ∧ (∀ fetch now, updateTrackedPolls fetch now db !! k = Some p))
  ∧ (isTracked p = false →
     (∀ now chat message_id tp, refreshpoll now chat message_id tp db !! k = Some p)
     ∧ (∀ fetch now, updateTrackedPolls fetch now db !! k = Some p)).
Proof.
  intros Hnd Hk.
  pose proof (list_elem_of_lookup_2 _ _ _ Hk) as Hin. split.
  - intros Hclosed. split_and!.
    + intros pollData. by apply pollHandler_keeps_closed.
    + intros now answer. by apply pollAnswerHandler_keeps_closed.
    + intros fetch now. by apply updateTrackedPolls_keeps_closed.
  - intros Huntracked. split.
    + intros now chat message_id tp. unfold refreshpoll.
      destruct (findOne _ db) as [q|] eqn:Hfind; [|done].
      destruct (isTracked q) eqn:Hq; simpl; [|done].
      apply findOne_Some in Hfind as [Hqin _].
      apply save_lookup_ne; [done|].
      destruct (applyRefresh_fields now tp q) as (-> & _).
      apply (flag_id_ne db); try done. congruence.
    + intros fetch now. apply tick_fold_lookup; [|done].
      intros q Hq. apply trackedBatch_elem_of in Hq as (Hqin & Hqt & _).
      apply (flag_id_ne db); try done. congruence.
Qed.

Lemma closed_and_untracked_records_witness :
  (isClosed untracked_poll = true →
     (∀ pollData, pollHandler pollData [tracked_poll_3; untracked_poll] !! 1%nat
                  = Some untracked_poll)
     ∧ (∀ now answer,
          pollAnswerHandler includes now answer [tracked_poll_3; untracked_poll] !! 1%nat
          = Some untracked_poll)
     ∧ (∀ fetch now, updateTrackedPolls fetch now [tracked_poll_3; untracked_poll] !! 1%nat
                     = Some untracked_poll))
  ∧ (isTracked untracked_poll = false →
     (∀ now chat message_id tp,
        refreshpoll now chat message_id tp [tracked_poll_3; untracked_poll] !! 1%nat
        = Some untracked_poll)
     ∧ (∀ fetch now, updateTrackedPolls fetch now [tracked_poll_3; untracked_poll] !! 1%nat
                     = Some untracked_poll)).
Proof.
  apply (closed_and_untracked_records_are_left_alone includes
           [tracked_poll_3; untracked_poll] 1 untracked_poll).
  - apply (bool_decide_unpack _). by vm_compute.
  - reflexivity.
Defined.

(** ** Other voters under a named vote *)

(** X12.  A named vote event of a user, whatever it selects (one index,
    several, indices out of range, or none for a retraction) and whatever
    the kind of poll, keeps on every option the text and all the ids other
    than the user's own, placeholders included, in their order; and a
    retraction that follows leaves on every option exactly the ids a
    direct retraction would have left. *)
Theorem named_vote_keeps_other_voters
    (now now' : Z) (u : User) (ids : list Z) (p : Poll) (j : nat) (o : PollOption) :
  options p !! j = Some o →
  (∃ o', options (castVote now u ids p) !! j = Some o'
         ∧ text o' = text o
         ∧ filter (λ id, id ≠ user_id u) (voterIds o')
           = filter (λ id, id ≠ user_id u) (voterIds o))
  ∧ (∃ o'', options (castVote now' u [] (castVote now u ids p)) !! j = Some o''
            ∧ voterIds o'' = filter (λ id, id ≠ user_id u) (voterIds o)).
Proof.
  intros Hj.
  destruct (recordVotes_sameOthers (isMultipleChoice p) (user_id u) ids (options p) j o Hj)
    as (o' & Hj' & Htext & Hids).
  split.
  - exists o'. by rewrite castVote_options.
  - rewrite castVote_options. unfold recordVotes at 1. simpl.
    rewrite list_lookup_fmap, castVote_options, Hj'. simpl.
    eexists. split; [done|].
    destruct (retractVote_existingVotes (user_id u) o') as [Hv _]. by rewrite Hv.
Qed.

Lemma named_vote_keeps_other_voters_witness :
  (∃ o', options (castVote 20 user_555 [1; 7; 0] poll_555) !! 0%nat = Some o'
         ∧ text o' = "A"
         ∧ filter (λ id, id ≠ 555) (voterIds o') = [-1000001; -1000002])
  ∧ (∃ o'', options (castVote 21 user_555 [] (castVote 20 user_555 [1; 7; 0] poll_555))
              !! 0%nat = Some o''
            ∧ voterIds o'' = [-1000001; -1000002]).
Proof.
  apply (named_vote_keeps_other_voters 20 21 user_555 [1; 7; 0] poll_555 0
           (mkOption "A" [555; -1000001; -1000002] 3)).
  reflexivity.
Defined.

(** ** Multiple-choice polls and indices out of range *)

Lemma recordVote_multiple_other (uid : Z) (opts : list PollOption) (idx : Z) (j : nat) :
  Z.of_nat j ≠ idx → recordVote true uid opts idx !! j = opts !! j.
Proof.
  intros Hne. unfold recordVote. case_decide; [|done]. simpl.
  destruct (opts !! Z.to_nat idx) as [o|]; [|done].
  case_decide; [done|]. apply list_lookup_insert_ne. lia.
Qed.

Lemma recordVote_multiple_selected (uid : Z) (opts : list PollOption)
    (j : nat) (o : PollOption) :
  opts !! j = Some o →
  ∃ o', recordVote true uid opts (Z.of_nat j) !! j = Some o' ∧ uid ∈ voterIds o'.
Proof.
  intros Hj. destruct (decide (uid ∈ voterIds o)) as [Hin|Hnin].
  - exists o. split; [|done]. unfold recordVote.
    pose proof (lookup_lt_Some _ _ _ Hj). rewrite decide_True by lia.
    rewrite Nat2Z.id. simpl. rewrite Hj. by rewrite decide_True.
  - rewrite (recordVote_added true _ _ _ _ Hj) by (by right).
    eexists. split; [done|]. simpl. apply elem_of_app. right. by left.
Qed.

Lemma recordVote_keeps_vote (multiple : bool) (uid : Z) (opts : list PollOption)
    (idx : Z) (j : nat) (o : PollOption) :
  multiple = true → opts !! j = Some o → uid ∈ voterIds o →
  ∃ o', recordVote multiple uid opts idx !! j = Some o' ∧ uid ∈ voterIds o'.
Proof.
  intros -> Hj Hin. unfold recordVote. case_decide; [|by exists o]. simpl.
  destruct (opts !! Z.to_nat idx) as [ok|] eqn:Hk; [|by exists o].
  case_decide; [by exists o|].
  destruct (decide (Z.to_nat idx = j)) as [Heq|Hne].
  - rewrite Heq in *. assert (ok = o) as -> by congruence. done.
  - rewrite list_lookup_insert_ne by done. by exists o.
Qed.

(** X13.  On a multiple-choice poll a named vote is additive: an option
    whose index is not selected is left exactly as it was ([voterIds] and
    [existingVotes]), and every selected option that exists holds the
    voter's id afterwards. *)
Theorem multiple_choice_vote_is_additive
    (now : Z) (u : User) (ids : list Z) (p : Poll) (j : nat) (o : PollOption) :
  isMultipleChoice p = true →
  ids ≠ [] →
  options p !! j = Some o →
  (Z.of_nat j ∉ ids → options (castVote now u ids p) !! j = Some o)
  ∧ (Z.of_nat j ∈ ids →
     ∃ o', options (castVote now u ids p) !! j = Some o' ∧ user_id u ∈ voterIds o').
Proof.
  intros Hm Hne Hj. rewrite castVote_options, Hm. unfold recordVotes.
  rewrite decide_True by (destruct ids; [done|simpl; lia]).
  clear Hne. split.
  - revert o Hj. generalize (options p) as opts.
    induction ids as [|idx ids IH]; intros opts o Hj Hnin; simpl; [done|].
    apply IH.
    + rewrite recordVote_multiple_other; [done|]. intros Heq. apply Hnin. rewrite Heq. left.
    + intros Hin. apply Hnin. by right.
  - revert o Hj. generalize (options p) as opts.
    induction ids as [|idx ids IH]; intros opts o Hj Hin; simpl;
      [by apply elem_of_nil in Hin|].
    assert (∀ ids' opts' o', opts' !! j = Some o' → user_id u ∈ voterIds o' →
              ∃ o'', foldl (recordVote true (user_id u)) opts' ids' !! j = Some o''
                     ∧ user_id u ∈ voterIds o'') as Hkeep.
    { induction ids' as [|idx' ids' IH']; intros opts' o' Hj' Hin'; simpl; [by exists o'|].
      destruct (recordVote_keeps_vote true (user_id u) opts' idx' j o' eq_refl Hj' Hin')
        as (o2 & Hj2 & Hin2).
      by eapply IH'. }
    destruct (decide (Z.of_nat j = idx)) as [<-|Hne].
    + destruct (recordVote_multiple_selected (user_id u) opts j o Hj) as (o1 & Hj1 & Hin1).
      by eapply Hkeep.
    + apply elem_of_cons in Hin as [Hin|Hin]; [done|].
      eapply IH; [|done]. by rewrite recordVote_multiple_other.
Qed.

Lemma multiple_choice_vote_is_additive_witness :
  (Z.of_nat 1 ∉ [0; 2] →
   options (castVote 20 user_555 [0; 2] multi_poll) !! 1%nat = Some (mkOption "B" [777] 1))
  ∧ (Z.of_nat 1 ∈ [0; 2] →
     ∃ o', options (castVote 20 user_555 [0; 2] multi_poll) !! 1%nat = Some o'
           ∧ user_id user_555 ∈ voterIds o').
Proof.
  apply (multiple_choice_vote_is_additive 20 user_555 [0; 2] multi_poll 1
           (mkOption "B" [777] 1)).
  - reflexivity.
  - discriminate.
  - reflexivity.
Defined.

(** X14.  A vote all of whose selected indices are out of range (negative
    or not below the number of options) changes no option, not even on a
    single-choice poll where a valid index would first clear the user's
    votes; the user's mention is nevertheless marked as voted. *)
Theorem out_of_range_vote_changes_no_option
    (now : Z) (u : User) (ids : list Z) (p : Poll) :
  ids ≠ [] →
  Forall (outOfRange (options p)) ids →
  options (castVote now u ids p) = options p
  ∧ ∀ i mention,
      mentions p !! i = Some mention →
      mentionMatches u mention →
      (∀ i' m', mentions p !! i' = Some m' → (i' < i)%nat → ¬ mentionMatches u m') →
      ∃ mention', mentions (castVote now u ids p) !! i = Some mention'
                  ∧ voted mention' = true.
Proof.
  intros Hne Hout. split.
  - rewrite castVote_options. unfold recordVotes.
    rewrite decide_True by (destruct ids; [done|simpl; lia]).
    clear Hne. induction Hout as [|idx ids Hidx Hout IH]; simpl; [done|].
    by rewrite recordVote_outOfRange.
  - intros i mention Hi Hmatch Hfirst. rewrite castVote_mentions. unfold updateMentions.
    assert (list_find (λ m, mentionMatches u m) (mentions p) = Some (i, mention)) as ->
      by (by apply list_find_Some).
    rewrite list_lookup_insert_eq by (by eapply lookup_lt_Some).
    eexists. split; [done|]. simpl.
    apply bool_decide_eq_true. destruct ids; [done|simpl; lia].
Qed.

Lemma out_of_range_vote_witness :
  options (castVote 20 user_555 [2; -1] poll_555) = options poll_555
  ∧ ∀ i mention,
      mentions poll_555 !! i = Some mention →
      mentionMatches user_555 mention →
      (∀ i' m', mentions poll_555 !! i' = Some m' → (i' < i)%nat
                → ¬ mentionMatches user_555 m') →
      ∃ mention', mentions (castVote 20 user_555 [2; -1] poll_555) !! i = Some mention'
                  ∧ voted mention' = true.
Proof.
  apply (out_of_range_vote_changes_no_option 20 user_555 [2; -1] poll_555).
  - discriminate.
  - repeat constructor; unfold outOfRange; simpl; lia.
Defined.

(** ** The recount across a named vote *)

Lemma elem_of_uniqueVoters (opts : list PollOption) (x : Z) :
  x ∈ uniqueVoters opts ↔ x > 0 ∧ ∃ o, o ∈ opts ∧ x ∈ voterIds o.
Proof.
  rewrite uniqueVoters_list, elem_of_list_to_set, list_elem_of_filter.
  split; intros [Hpos Hin]; (split; [done|]).
  - induction opts as [|o opts IH]; simpl in Hin; [by apply elem_of_nil in Hin|].
    apply elem_of_app in Hin as [Hin|Hin].
    + exists o. split; [left|done].
    + destruct (IH Hin) as (o' & Ho' & Hx). exists o'. split; [by right|done].
  - destruct Hin as (o & Ho & Hx).
    induction opts as [|o' opts IH]; [by apply elem_of_nil in Ho|]. simpl.
    apply elem_of_app. apply elem_of_cons in Ho as [->|Ho]; [by left|right; by apply IH].
Qed.

Lemma voted_uniqueVoters (uid : Z) (opts : list PollOption) :
  0 < uid → (uid ∈ uniqueVoters opts ↔ hasVoted uid opts).
Proof.
  intros Hpos. rewrite elem_of_uniqueVoters. unfold hasVoted. rewrite Exists_exists.
  split; [tauto|]. intros H. split; [lia|done].
Qed.

Lemma sum_list_with_pointwise (f : PollOption → nat) (l l' : list PollOption) :
  Forall2 (λ a b, f a = f b) l l' → sum_list_with f l = sum_list_with f l'.
Proof. induction 1 as [|a b l l' Hab _ IH]; simpl; [done|]. by rewrite Hab, IH. Qed.

Lemma placeholderVotes_pointwise (opts opts' : list PollOption) :
  length opts = length opts' →
  (∀ j o o', opts !! j = Some o → opts' !! j = Some o' →
     filter (λ id, id < 0) (voterIds o') = filter (λ id, id < 0) (voterIds o)) →
  placeholderVotes opts' = placeholderVotes opts.
Proof.
  intros Hlen Hpt. unfold placeholderVotes. rewrite !placeholderVotes_acc.
  f_equal. f_equal. apply sum_list_with_pointwise.
  apply Forall2_same_length_lookup_2; [done|].
  intros j o' o Hj' Hj. unfold negative_count. by rewrite (Hpt j o o').
Qed.

Lemma size_add (S : gset Z) (x : Z) :
  Z.of_nat (size (S ∪ {[ x ]}))
  = Z.of_nat (size S) + (if decide (x ∈ S) then 0 else 1).
Proof.
  case_decide as Hin.
  - replace (S ∪ {[ x ]}) with S by set_solver. lia.
  - rewrite size_union by set_solver. rewrite size_singleton. lia.
Qed.

Lemma size_remove (S : gset Z) (x : Z) :
  Z.of_nat (size (S ∖ {[ x ]}))
  = Z.of_nat (size S) - (if decide (x ∈ S) then 1 else 0).
Proof.
  case_decide as Hin.
  - rewrite size_difference by set_solver. rewrite size_singleton.
    assert (size S ≠ 0)%nat; [|lia].
    intros Hz. apply size_empty_inv in Hz. set_solver.
  - replace (S ∖ {[ x ]}) with S by set_solver. lia.
Qed.

Lemma single_vote_ids (uid : Z) (opts : list PollOption) (k j : nat) (o : PollOption) :
  (k < length opts)%nat → opts !! j = Some o →
  ∃ o', recordVote false uid opts (Z.of_nat k) !! j = Some o'
        ∧ voterIds o'
          = filter (λ id, id ≠ uid) (voterIds o) ++ (if decide (j = k) then [uid] else []).
Proof.
  intros Hk Hj. destruct (decide (j = k)) as [->|Hne].
  - rewrite (recordVote_added false _ _ _ _ Hj) by (by left). by eexists.
  - rewrite (recordVote_other _ _ _ _ _ Hk Hne Hj). eexists. split; [done|].
    simpl. by rewrite app_nil_r.
Qed.

Lemma single_vote_uniqueVoters (uid : Z) (opts : list PollOption) (k : nat) :
  0 < uid → (k < length opts)%nat →
  uniqueVoters (recordVote false uid opts (Z.of_nat k)) = uniqueVoters opts ∪ {[ uid ]}.
Proof.
  intros Hpos Hk. apply set_eq. intros x.
  rewrite elem_of_union, elem_of_singleton, !elem_of_uniqueVoters. split.
  - intros (Hx & o' & Ho' & Hin). apply list_elem_of_lookup in Ho' as [j Hj'].
    assert (is_Some (opts !! j)) as [o Hj].
    { apply lookup_lt_is_Some. rewrite <- (recordVote_length false uid opts (Z.of_nat k)).
      by eapply lookup_lt_Some. }
    destruct (single_vote_ids uid opts k j o Hk Hj) as (o2 & Hj2 & Hids).
    assert (o2 = o') as -> by congruence. rewrite Hids in Hin.
    apply elem_of_app in Hin as [Hin|Hin].
    + apply list_elem_of_filter in Hin as [_ Hin]. left. split; [done|].
      exists o. split; [by eapply list_elem_of_lookup_2|done].
    + right. case_decide; [by apply list_elem_of_singleton in Hin|by apply elem_of_nil in Hin].
  - intros [(Hx & o & Ho & Hin)| ->].
    + destruct (decide (x = uid)) as [->|Hne].
      * split; [done|]. destruct (lookup_lt_is_Some_2 opts k Hk) as [ok Hok].
        destruct (single_vote_ids uid opts k k ok Hk Hok) as (o2 & Hj2 & Hids).
        exists o2. split; [by eapply list_elem_of_lookup_2|].
        rewrite Hids, decide_True by done. apply elem_of_app. right. left.
      * split; [done|]. apply list_elem_of_lookup in Ho as [j Hj].
        destruct (single_vote_ids uid opts k j o Hk Hj) as (o2 & Hj2 & Hids).
        exists o2. split; [by eapply list_elem_of_lookup_2|].
        rewrite Hids. apply elem_of_app. left. by apply list_elem_of_filter.
    + split; [lia|]. destruct (lookup_lt_is_Some_2 opts k Hk) as [ok Hok].
      destruct (single_vote_ids uid opts k k ok Hk Hok) as (o2 & Hj2 & Hids).
      exists o2. split; [by eapply list_elem_of_lookup_2|].
      rewrite Hids, decide_True by done. apply elem_of_app. right. left.
Qed.

Lemma retract_uniqueVoters (uid : Z) (opts : list PollOption) :
  uniqueVoters (retractVote uid <$> opts) = uniqueVoters opts ∖ {[ uid ]}.
Proof.
  apply set_eq. intros x.
  rewrite elem_of_difference, elem_of_singleton, !elem_of_uniqueVoters. split.
  - intros (Hx & o' & Ho' & Hin). apply list_elem_of_fmap in Ho' as (o & -> & Ho).
    destruct (retractVote_existingVotes uid o) as [Hv _]. rewrite Hv in Hin.
    apply list_elem_of_filter in Hin as [Hne Hin]. split; [|done].
    split; [done|]. by exists o.
  - intros [(Hx & o & Ho & Hin) Hne]. split; [done|].
    exists (retractVote uid o). split; [apply list_elem_of_fmap; by exists o|].
    destruct (retractVote_existingVotes uid o) as [Hv _]. rewrite Hv.
    by apply list_elem_of_filter.
Qed.

Lemma castVote_total (now : Z) (u : User) (ids : list Z) (p : Poll) :
  total_voter_count (castVote now u ids p)
  = Some (newTotalVoterCount (recordVotes (isMultipleChoice p) (user_id u) ids (options p))).
Proof.
  unfold castVote. cbv zeta.
  match goal with
  | |- total_voter_count (recount ?q) = _ => destruct (recount_total q) as [Ht _]
  end.
  by rewrite Ht.
Qed.

(** X15.  The total a named vote stores moves by at most one with respect
    to the recount of the record before the vote: a vote for a valid
    option of a single-choice poll stores the old recount plus one when
    the user stood on no option and the old recount otherwise (changing
    one's vote does not change the total); a retraction stores the old
    recount minus one when the user stood on some option and the old
    recount otherwise.  Placeholders count as before in both cases. *)
Theorem named_vote_moves_total_by_at_most_one (now : Z) (u : User) (k : nat) (p : Poll) :
  isMultipleChoice p = false →
  0 < user_id u →
  (k < length (options p))%nat →
  total_voter_count (castVote now u [Z.of_nat k] p)
  = Some (newTotalVoterCount (options p)
          + (if decide (hasVoted (user_id u) (options p)) then 0 else 1))
  ∧ total_voter_count (castVote now u [] p)
    = Some (newTotalVoterCount (options p)
            - (if decide (hasVoted (user_id u) (options p)) then 1 else 0)).
Proof.
  intros Hsingle Hpos Hk. rewrite !castVote_total, Hsingle. unfold recordVotes. simpl.
  unfold newTotalVoterCount. split; f_equal.
  - rewrite single_vote_uniqueVoters by done. rewrite size_add.
    rewrite (placeholderVotes_pointwise (options p)).
    + rewrite (decide_ext _ _ _ _ (voted_uniqueVoters _ _ Hpos)). lia.
    + by rewrite recordVote_length.
    + intros j o o' Hj Hj'.
      destruct (single_vote_ids (user_id u) (options p) k j o Hk Hj) as (o2 & Hj2 & Hids).
      assert (o2 = o') as -> by congruence. rewrite Hids.
      apply filter_negative_keep; [done|]. intros x Hx.
      case_decide; [by apply list_elem_of_singleton in Hx|by apply elem_of_nil in Hx].
  - rewrite retract_uniqueVoters, size_remove.
    rewrite (placeholderVotes_pointwise (options p)).
    + rewrite (decide_ext _ _ _ _ (voted_uniqueVoters _ _ Hpos)). lia.
    + by rewrite length_fmap.
    + intros j o o' Hj Hj'. rewrite list_lookup_fmap, Hj in Hj'. injection Hj' as <-.
      destruct (retractVote_existingVotes (user_id u) o) as [Hv _]. rewrite Hv.
      rewrite <- (app_nil_r (filter (λ id, id ≠ user_id u) (voterIds o))).
      apply filter_negative_keep; [done|]. intros x Hx. by apply elem_of_nil in Hx.
Qed.

Lemma named_vote_moves_total_witness :
  total_voter_count (castVote 20 user_555 [Z.of_nat 1] poll_555)
  = Some (newTotalVoterCount (options poll_555)
          + (if decide (hasVoted 555 (options poll_555)) then 0 else 1))
  ∧ total_voter_count (castVote 20 user_555 [] poll_555)
    = Some (newTotalVoterCount (options poll_555)
            - (if decide (hasVoted 555 (options poll_555)) then 1 else 0)).
Proof.
  apply (named_vote_moves_total_by_at_most_one 20 user_555 1 poll_555).
  - reflexivity.
  - simpl. lia.
  - simpl. lia.
Defined.

(** ** Outcomes of the lookups *)

Lemma filter_is_nil {A} (P : A → Prop) `{!∀ x, Decision (P x)} (l : list A) :
  filter P l = [] ↔ ∀ x, x ∈ l → ¬ P x.
Proof.
  split.
  - intros Hnil x Hx HP. by eapply (filter_nil_not_elem_of P l x).
  - intros Hnone. induction l as [|y l IH]; [done|].
    rewrite filter_cons, decide_False by (apply Hnone; left).
    apply IH. intros x Hx. apply Hnone. by right.
Qed.

Lemma findOne_None (P : Poll → Prop) `{!∀ p, Decision (P p)} (db : list Poll) :
  findOne P db = None ↔ ∀ p, p ∈ db → ¬ P p.
Proof.
  unfold findOne. rewrite head_None. apply filter_is_nil.
Qed.

Lemma findByPollId_None (id : string) (db : list Poll) :
  findByPollId id db = None
  ↔ ∀ p, p ∈ db → pollId p ≠ Some id ∧ originalPollId p ≠ Some id.
Proof.
  unfold findByPollId.
  destruct (findOne (λ p, pollId p = Some id) db) as [q|] eqn:Hq.
  - split; [done|]. intros Hnone. apply findOne_Some in Hq as [Hin Hpid].
    by destruct (Hnone q Hin).
  - rewrite findOne_None in Hq. rewrite findOne_None. naive_solver.
Qed.

Lemma findByPollId_Some (id : string) (db : list Poll) (p : Poll) :
  findByPollId id db = Some p → p ∈ db ∧ (pollId p = Some id ∨ originalPollId p = Some id).
Proof.
  unfold findByPollId.
  destruct (findOne (λ p, pollId p = Some id) db) as [q|] eqn:Hq.
  - intros [= <-]. apply findOne_Some in Hq. tauto.
  - intros Hp. apply findOne_Some in Hp. tauto.
Qed.

Section LookupOutcomes.
Variable regexTest : string → string → bool.

Lemma findActivePolls_open (id : string) (db : list Poll) (p : Poll) :
  p ∈ findActivePolls regexTest id db → p ∈ db ∧ isClosed p = false.
Proof.
  rewrite findActivePolls_cases. case_decide; unfold openPolls, prefixMatches;
    rewrite list_elem_of_filter; tauto.
Qed.

Lemma findActivePolls_nil (id : string) (db : list Poll) :
  findActivePolls regexTest id db = [] ↔ openPolls db = [].
Proof.
  rewrite findActivePolls_cases. case_decide as Hp; [done|].
  split; [done|]. intros Hopen. exfalso. apply Hp.
  unfold prefixMatches, openPolls in *.
  apply filter_is_nil. intros p Hin [Hc _].
  by eapply (filter_nil_not_elem_of _ db p Hopen).
Qed.

(** X16.  Outcomes of the lookups.  The vote handler's lookup fails
    exactly when every stored record is closed and carries the inbound id
    neither as [pollId] nor as [originalPollId]; what it finds is a record
    of the store that carries the id or is open.  A closed record that
    carries the id shadows the open polls: the vote is dropped.  The
    snapshot push has no partial match: an id no stored record carries
    leaves the store as it is, whatever polls are open. *)
Theorem lookup_outcomes (id : string) (db : list Poll) :
  (resolvePoll regexTest id db = None
   ↔ ∀ p, p ∈ db →
       pollId p ≠ Some id ∧ originalPollId p ≠ Some id ∧ isClosed p = true)
  ∧ (∀ p, resolvePoll regexTest id db = Some p →
       p ∈ db ∧ (pollId p = Some id ∨ originalPollId p = Some id ∨ isClosed p = false))
  ∧ (∀ p now u ids, findByPollId id db = Some p → isClosed p = true →
       pollAnswerHandler regexTest now (Some (mkPollAnswer id (Some u) ids)) db = db)
  ∧ (∀ tp, tg_id tp = id →
       (∀ p, p ∈ db → pollId p ≠ Some id ∧ originalPollId p ≠ Some id) →
       pollHandler (Some tp) db = db).
Proof.
  assert (∀ p, resolvePoll regexTest id db = Some p →
            p ∈ db ∧ (pollId p = Some id ∨ originalPollId p = Some id ∨ isClosed p = false))
    as Hsome.
  { intros p. unfold resolvePoll.
    destruct (findByPollId id db) as [q|] eqn:Hq.
    - intros [= <-]. apply findByPollId_Some in Hq. tauto.
    - case_decide; [|case_decide; [|done]]; intros Hhd; apply head_Some_elem_of in Hhd.
      + apply findActivePolls_open in Hhd. tauto.
      + apply js_sort_elem_of, findActivePolls_open in Hhd. tauto. }
  split_and!; [|done| |].
  - split.
    + intros Hnone p Hp. unfold resolvePoll in Hnone.
      destruct (findByPollId id db) as [q|] eqn:Hq; [done|].
      rewrite findByPollId_None in Hq. destruct (Hq p Hp) as [? ?].
      split_and!; try done.
      assert (findActivePolls regexTest id db = []) as Hnil.
      { destruct (findActivePolls regexTest id db) as [|p1 [|p2 l]] eqn:Hl; [done| |].
        - by rewrite decide_True in Hnone.
        - rewrite decide_False, decide_True in Hnone by (simpl; lia).
          apply head_None in Hnone.
          pose proof (js_sort_length (λ a b, updatedAt b - updatedAt a) (p1 :: p2 :: l)) as Hlen.
          rewrite Hnone in Hlen. simpl in Hlen. lia. }
      apply findActivePolls_nil in Hnil.
      destruct (isClosed p) eqn:Hc; [done|]. exfalso.
      eapply (filter_nil_not_elem_of _ db p Hnil); done.
    + intros Hall. destruct (resolvePoll regexTest id db) as [p|] eqn:Hres; [|done].
      destruct (Hsome p eq_refl) as [Hin Hor]. destruct (Hall p Hin) as (? & ? & ?).
      destruct Hor as [?|[?|?]]; congruence.
  - intros p now u ids Hfind Hclosed. unfold pollAnswerHandler. simpl.
    case_decide; [done|]. unfold resolvePoll. by rewrite Hfind, Hclosed.
  - intros tp <- Hnone. unfold pollHandler. case_decide; [done|].
    by rewrite (proj2 (findByPollId_None _ _) Hnone).
Qed.
End LookupOutcomes.

(** ** The mention roster *)

Lemma voted_flag (ids : list Z) :
  bool_decide (Z.of_nat (length ids) > 0) = bool_decide (ids ≠ []).
Proof.
  apply bool_decide_ext. destruct ids as [|x ids]; simpl; split; (done || lia).
Qed.

(** X17.  What a named vote does to the roster: the first mention that
    matches the voter (by [userId], or by a non-empty [username]) keeps
    its username and gets [voted] set to whether the event selects
    something; if it carried no [userId] it is resolved, taking the
    voter's id and the voter's names, trimmed as the schema stores them (a
    missing name stays missing), and otherwise its id and names are kept;
    every other mention, a later duplicate included, is left as it is. *)
Theorem vote_resolves_first_matching_mention
    (now : Z) (u : User) (ids : list Z) (p : Poll) (i : nat) (mention : Mention) :
  mentions p !! i = Some mention →
  mentionMatches u mention →
  (∀ i' m', mentions p !! i' = Some m' → (i' < i)%nat → ¬ mentionMatches u m') →
  (∃ mention', mentions (castVote now u ids p) !! i = Some mention'
     ∧ username mention' = username mention
     ∧ voted mention' = bool_decide (ids ≠ [])
     ∧ (noUserId mention = true →
          userId mention' = Some (user_id u)
          ∧ firstName mention' = js_trim <$> first_name u
          ∧ lastName mention' = js_trim <$> last_name u)
     ∧ (noUserId mention = false →
          userId mention' = userId mention
          ∧ firstName mention' = firstName mention ∧ lastName mention' = lastName mention))
  ∧ length (mentions (castVote now u ids p)) = length (mentions p)
  ∧ ∀ i', i' ≠ i → mentions (castVote now u ids p) !! i' = mentions p !! i'.
Proof.
  intros Hi Hmatch Hfirst. rewrite castVote_mentions. unfold updateMentions.
  assert (list_find (λ m, mentionMatches u m) (mentions p) = Some (i, mention)) as ->
    by (by apply list_find_Some).
  pose proof (lookup_lt_Some _ _ _ Hi) as Hlt. split_and!.
  - rewrite list_lookup_insert_eq by done. eexists. split; [done|]. simpl.
    rewrite voted_flag. destruct (noUserId mention); simpl; split_and!; done.
  - by rewrite length_insert.
  - intros i' Hne. by rewrite list_lookup_insert_ne.
Qed.

(** A voter known by username only, whose first name comes with a space at
    either end, votes on a multiple-choice poll. *)
Lemma vote_resolves_first_matching_mention_witness :
  let ann := mkUser 555 (Some "ann") (Some " Ann ") None in
  (∃ mention', mentions (castVote 20 ann [0] multi_poll) !! 0%nat = Some mention'
     ∧ username mention' = Some "ann"
     ∧ voted mention' = bool_decide ([0] ≠ [])
     ∧ (noUserId (mkMention None (Some "ann") None None false) = true →
          userId mention' = Some 555
          ∧ firstName mention' = Some "Ann" ∧ lastName mention' = None)
     ∧ (noUserId (mkMention None (Some "ann") None None false) = false →
          userId mention' = None
          ∧ firstName mention' = None ∧ lastName mention' = None))
  ∧ length (mentions (castVote 20 ann [0] multi_poll)) = length (mentions multi_poll)
  ∧ ∀ i', i' ≠ 0%nat →
      mentions (castVote 20 ann [0] multi_poll) !! i' = mentions multi_poll !! i'.
Proof.
  apply (vote_resolves_first_matching_mention 20
           (mkUser 555 (Some "ann") (Some " Ann ") None) [0] multi_poll 0
           (mkMention None (Some "ann") None None false)).
  - reflexivity.
  - reflexivity.
  - intros i' m' _ Hlt. lia.
Defined.

(** ** Mentions of the poll message *)

Lemma extractMention_cases (text : string) (fromId : Z) (entity : MessageEntity) (m : Mention) :
  m ∈ extractMention text fromId entity →
  (entity_type entity = "mention"
   ∧ m = {| userId := None;
            username := Some (js_substring text (entity_offset entity + 1)
                                (entity_offset entity + entity_length entity));
            firstName := None; lastName := None; voted := false |})
  ∨ (entity_type entity = "text_mention"
     ∧ ∃ u, entity_user entity = Some u
            ∧ userId m = Some (user_id u)
            ∧ voted m = bool_decide (user_id u = fromId)).
Proof.
  unfold extractMention. case_decide as Hm.
  - intros Hin. apply list_elem_of_singleton in Hin. by left.
  - case_decide as Ht; [|intros Hin; by apply elem_of_nil in Hin].
    destruct (entity_user entity) as [u|]; [|intros Hin; by apply elem_of_nil in Hin].
    intros Hin. apply list_elem_of_singleton in Hin as ->. right.
    split; [done|]. by exists u.
Qed.

(** X18.  The roster read off a poll message holds one mention for each
    [mention] entity and each [text_mention] entity that names a user, in
    the order of the entities, and nothing for other entities or when the
    message has none.  A mention read from an [@name] has no [userId], no
    first or last name and is not voted; its username is the text of the
    entity after its first character.  A text mention carries the id of
    its user and the user's non-empty names; it starts as voted exactly
    when its user is the sender of the command, so a mention starts as
    voted only when it is a text mention of the sender. *)
Theorem extractMentions_structure
    (entities : option (list MessageEntity)) (text : string) (fromId : Z) :
  extractMentions None text fromId = []
  ∧ extractMentions (Some []) text fromId = []
  ∧ (∀ es1 es2,
       extractMentions (Some (es1 ++ es2)) text fromId
       = extractMentions (Some es1) text fromId ++ extractMentions (Some es2) text fromId)
  ∧ (∀ e, entity_type e = "mention" →
       extractMentions (Some [e]) text fromId
       = [ {| userId := None;
              username := Some (js_substring text (entity_offset e + 1)
                                  (entity_offset e + entity_length e));
              firstName := None; lastName := None; voted := false |} ])
  ∧ (∀ e u, entity_type e = "text_mention" → entity_user e = Some u →
       extractMentions (Some [e]) text fromId
       = [ {| userId := Some (user_id u);
              username := if truthy (user_username u) then user_username u else None;
              firstName := if truthy (first_name u) then first_name u else None;
              lastName := if truthy (last_name u) then last_name u else None;
              voted := bool_decide (user_id u = fromId) |} ])
  ∧ (∀ e, entity_type e ≠ "mention" →
       (entity_type e = "text_mention" → entity_user e = None) →
       extractMentions (Some [e]) text fromId = [])
  ∧ length (extractMentions entities text fromId)
    = length (filter (λ e, entity_type e = "mention"
                           ∨ (entity_type e = "text_mention" ∧ is_Some (entity_user e)))
                (default [] entities))
  ∧ ∀ m, m ∈ extractMentions entities text fromId →
      (userId m = None → voted m = false ∧ is_Some (username m))
      ∧ (voted m = true → userId m = Some fromId).
Proof.
  split_and!.
  - done.
  - done.
  - intros es1 es2. simpl. apply bind_app.
  - intros e He. simpl. rewrite app_nil_r. unfold extractMention. by rewrite decide_True.
  - intros e u He Hu. simpl. rewrite app_nil_r. unfold extractMention.
    rewrite decide_False by (by rewrite He). by rewrite decide_True, Hu.
  - intros e Hm Ht. simpl. rewrite app_nil_r. unfold extractMention.
    rewrite decide_False by done. case_decide as Htm; [|done]. by rewrite (Ht Htm).
  - destruct entities as [es|]; [|done]. simpl.
    induction es as [|e es IH]; [done|]. rewrite bind_cons, length_app, IH, filter_cons.
    unfold extractMention. destruct (decide (entity_type e = "mention")) as [Hm|Hm].
    + by rewrite decide_True by (by left).
    + destruct (decide (entity_type e = "text_mention")) as [Ht|Ht].
      * destruct (entity_user e) as [u|] eqn:Hu.
        -- by rewrite decide_True by (right; split; [done|by eexists]).
        -- rewrite decide_False; [done|]. intros [?|[_ [? ?]]]; done.
      * rewrite decide_False; [done|]. intros [?|[? _]]; done.
  - intros m Hin. destruct entities as [es|]; [|by apply elem_of_nil in Hin].
    simpl in Hin. apply list_elem_of_bind in Hin as (e & Hm & _).
    apply extractMention_cases in Hm as [[_ ->]|(_ & u & _ & Hid & Hv)]; simpl.
    + split; [by eauto|done].
    + split; [by rewrite Hid|]. rewrite Hv, Hid. intros Heq.
      apply bool_decide_eq_true in Heq. by rewrite Heq.
Qed.

Lemma length_append (s1 s2 : string) :
  String.length (String.append s1 s2) = (String.length s1 + String.length s2)%nat.
Proof. induction s1 as [|c s1 IH]; simpl; [done|]. by rewrite IH. Qed.

Lemma substring_skip (pre rest : string) (c : Ascii.ascii) (n : nat) :
  substring (S (String.length pre)) n (String.append pre (String c rest))
  = substring 0 n rest.
Proof. induction pre as [|c' pre IH]; simpl; [done|]. apply IH. Qed.

Lemma substring_prefix (s post : string) :
  substring 0 (String.length s) (String.append s post) = s.
Proof.
  induction s as [|c s IH]; simpl; [by destruct post|]. by rewrite IH.
Qed.

(** X19.  Reading a username back: when the text is [pre], one character
    (the [@]), [name], then [post], the [mention] entity that starts at
    the length of [pre] and spans [name] and its leading character yields
    exactly one unresolved mention whose username is [name]; a later vote
    of a user bearing that non-empty username matches it. *)
Theorem mention_username_round_trip
    (pre name post : string) (c : Ascii.ascii) (fromId : Z) (eu : option User) :
  let text := String.append pre (String c (String.append name post)) in
  let entity :=
    mkEntity "mention" (Z.of_nat (String.length pre))
      (1 + Z.of_nat (String.length name)) eu in
  extractMention text fromId entity = [mkMention None (Some name) None None false]
  ∧ ∀ u, name ≠ "" → user_username u = Some name →
      Forall (λ m, mentionMatches u m = true) (extractMention text fromId entity).
Proof.
  intros text entity.
  assert (extractMention text fromId entity = [mkMention None (Some name) None None false])
    as Heq.
  { unfold extractMention, entity. rewrite decide_True by done. simpl.
    do 3 f_equal. unfold js_substring, text.
    rewrite length_append. simpl. rewrite length_append.
    replace (Z.to_nat _) with (S (String.length pre)) by lia.
    replace (Z.to_nat _) with (String.length name) by lia.
    by rewrite substring_skip, substring_prefix. }
  split; [done|]. intros u Hne Hu. rewrite Heq. constructor; [|constructor].
  unfold mentionMatches. simpl. rewrite Hu.
  rewrite (bool_decide_eq_true_2 (name ≠ "")) by done.
  by rewrite (bool_decide_eq_true_2 (Some name = Some name)) by done.
Qed.

(** ** The methods of the poll model *)

(** X20.  [allMentionsVoted] and [getPendingMentions] agree: all mentions
    have voted exactly when none is pending (in particular on an empty
    roster); the pending mentions are the mentions not yet voted, in the
    order of the roster. *)
Theorem pending_mentions_agree (p : Poll) :
  (allMentionsVoted p = true ↔ getPendingMentions p = [])
  ∧ (∀ m, m ∈ getPendingMentions p ↔ m ∈ mentions p ∧ voted m = false)
  ∧ getPendingMentions p `sublist_of` mentions p.
Proof.
  unfold allMentionsVoted, getPendingMentions. split_and!.
  - rewrite filter_is_nil. case_decide as Hlen.
    + destruct (mentions p); [|done]. split; [|done]. intros _ m Hm.
      by apply elem_of_nil in Hm.
    + rewrite forallb_forall. split.
      * intros Hall m Hm Hneg. apply list_elem_of_In in Hm.
        rewrite (Hall m Hm) in Hneg. done.
      * intros Hnone m Hm. apply list_elem_of_In in Hm.
        destruct (voted m) eqn:Hv; [done|]. exfalso. apply (Hnone m Hm).
        by rewrite Hv.
  - intros m. rewrite list_elem_of_filter. destruct (voted m); simpl; naive_solver.
  - apply sublist_filter.
Qed.

(** X21.  [addVote] fails exactly on a closed poll or an index out of
    range, and then returns the record as it is; when it succeeds the
    option at the index holds the user's id; in every case each option
    keeps its text, its [existingVotes] and all ids other than the
    user's, and [total_voter_count] is not recomputed.  After [close] it
    always fails. *)
Theorem addVote_outcomes (optionIndex uid : Z) (p : Poll) :
  ((addVote optionIndex uid p).2 = false
   ↔ isClosed p = true ∨ optionIndex < 0 ∨ optionIndex >= Z.of_nat (length (options p)))
  ∧ ((addVote optionIndex uid p).2 = false → (addVote optionIndex uid p).1 = p)
  ∧ ((addVote optionIndex uid p).2 = true →
     ∃ o', options (addVote optionIndex uid p).1 !! Z.to_nat optionIndex = Some o'
           ∧ uid ∈ voterIds o')
  ∧ (∀ j o, options p !! j = Some o →
       ∃ o', options (addVote optionIndex uid p).1 !! j = Some o'
             ∧ text o' = text o ∧ existingVotes o' = existingVotes o
             ∧ filter (λ id, id ≠ uid) (voterIds o')
               = filter (λ id, id ≠ uid) (voterIds o))
  ∧ total_voter_count (addVote optionIndex uid p).1 = total_voter_count p
  ∧ addVote optionIndex uid (close p) = (close p, false).
Proof.
  unfold addVote. destruct (isClosed p) eqn:Hc; simpl.
  { split_and!; try done.
    - split; [by left|done].
    - intros j o Hj. by exists o. }
  destruct (decide (optionIndex < 0 ∨ optionIndex >= Z.of_nat (length (options p))))
    as [Hout|Hin]; simpl.
  { split_and!; try done.
    - split; [by right|done].
    - intros j o Hj. by exists o. }
  set (opts1 := if negb (isMultipleChoice p) then _ else _).
  assert (∀ j o, options p !! j = Some o →
            ∃ o1, opts1 !! j = Some o1 ∧ text o1 = text o
                  ∧ existingVotes o1 = existingVotes o
                  ∧ filter (λ id, id ≠ uid) (voterIds o1)
                    = filter (λ id, id ≠ uid) (voterIds o)) as Hopts1.
  { intros j o Hj. unfold opts1. destruct (isMultipleChoice p); simpl; [by exists o|].
    rewrite list_lookup_fmap, Hj. simpl. eexists. split; [done|]. simpl.
    split_and!; try done. apply filter_filter_same. }
  assert (length opts1 = length (options p)) as Hlen
    by (unfold opts1; destruct (isMultipleChoice p); simpl; by rewrite ?length_fmap).
  assert (is_Some (opts1 !! Z.to_nat optionIndex)) as [ok Hok]
    by (apply lookup_lt_is_Some; lia).
  rewrite Hok. split_and!; try done.
  - split; [done|]. intros [?|?]; [done|]. by destruct Hin.
  - intros _. case_decide as Hu.
    + by exists ok.
    + rewrite list_lookup_insert_eq by (by eapply lookup_lt_Some).
      eexists. split; [done|]. simpl. apply elem_of_app. right. left.
  - intros j o Hj. destruct (Hopts1 j o Hj) as (o1 & Hj1 & Ht & He & Hf).
    case_decide as Hu; [by exists o1|].
    destruct (decide (Z.to_nat optionIndex = j)) as [Heq|Hne].
    + rewrite Heq in *. rewrite list_lookup_insert_eq by (by eapply lookup_lt_Some).
      assert (ok = o1) as -> by congruence.
      eexists. split; [done|]. simpl. split_and!; try done.
      by rewrite filter_others_push.
    + rewrite list_lookup_insert_ne by done. by exists o1.
Qed.

(** ** [forceUpdatePoll] *)

(** X22.  [forceUpdatePoll] never changes a vote: on a store with unique
    record ids, whatever it returns, every record keeps its options, its mentions and its
    [total_voter_count]; it returns [null] exactly when the database is
    not connected or no record has the id, reports [updated] exactly when
    the call to the platform succeeded, and then the record that has the
    id carries the new [updatedAt]. *)
Theorem forceUpdatePoll_only_stamps
    (connected getUpdates : bool) (now id : Z) (db : list Poll) :
  NoDup (_id <$> db) →
  let '(db', result) := forceUpdatePoll connected getUpdates now id db in
  (λ p, (options p, mentions p, total_voter_count p)) <$> db'
  = (λ p, (options p, mentions p, total_voter_count p)) <$> db
  ∧ (result = None ↔ connected = false ∨ ∀ p, p ∈ db → _id p ≠ id)
  ∧ (result = Some true ↔ connected = true ∧ getUpdates = true ∧ ∃ p, p ∈ db ∧ _id p = id)
  ∧ (result = Some true → ∀ p, p ∈ db' → _id p = id → updatedAt p = now)
  ∧ (result ≠ Some true → db' = db).
Proof.
  intros Hnd. unfold forceUpdatePoll. destruct connected; simpl.
  2:{ split_and!.
      - done.
      - split; [by left|done].
      - split; [done|]. by intros (? & _).
      - done.
      - done. }
  destruct (findOne (λ p, _id p = id) db) as [q|] eqn:Hq.
  - apply findOne_Some in Hq as [Hin Hid].
    assert (¬ ∀ p, p ∈ db → _id p ≠ id) as Hex by (intros Hc; by apply (Hc q)).
    destruct getUpdates; split_and!.
    + unfold save. rewrite <- list_fmap_compose. apply list_fmap_ext.
      intros i p Hp. simpl. case_decide as Hc; [|done].
      assert (p = q) as ->; [|done].
      eapply unique_id; eauto using list_elem_of_lookup_2.
    + split; [done|]. intros [?|?]; done.
    + split; [|done]. intros _. split_and!; try done. by exists q.
    + intros _ p Hp Hpid. unfold save in Hp. apply list_elem_of_fmap in Hp as (r & -> & Hr).
      simpl in *. case_decide as Hc; [done|]. simpl in Hc. congruence.
    + intros Hc. by destruct Hc.
    + done.
    + split; [done|]. intros [?|?]; done.
    + split; [done|]. by intros (_ & ? & _).
    + done.
    + done.
  - rewrite findOne_None in Hq. split_and!.
    + done.
    + split; [|done]. intros _. by right.
    + split; [done|]. intros (_ & _ & p & Hp & Hid). exfalso. by apply (Hq p).
    + done.
    + done.
Qed.

Lemma forceUpdatePoll_only_stamps_witness :
  let '(db', result) :=
    forceUpdatePoll true true 20 1 [tracked_poll_3; untracked_poll] in
  (λ p, (options p, mentions p, total_voter_count p)) <$> db'
  = (λ p, (options p, mentions p, total_voter_count p)) <$> [tracked_poll_3; untracked_poll]
  ∧ (result = None ↔ true = false ∨ ∀ p, p ∈ [tracked_poll_3; untracked_poll] → _id p ≠ 1)
  ∧ (result = Some true
     ↔ true = true ∧ true = true ∧ ∃ p, p ∈ [tracked_poll_3; untracked_poll] ∧ _id p = 1)
  ∧ (result = Some true → ∀ p, p ∈ db' → _id p = 1 → updatedAt p = 20)
  ∧ (result ≠ Some true → db' = [tracked_poll_3; untracked_poll]).
Proof.
  apply (forceUpdatePoll_only_stamps true true 20 1 [tracked_poll_3; untracked_poll]).
  apply (bool_decide_unpack _). by vm_compute.
Defined.

(** ** The timer of the polling service *)

(** The intervals of the runtime are the one the module holds. *)
Lemma call_keeps_single_interval (s : Service) (c : ServiceCall) :
  (intervals s = match pollingInterval s with Some h => {[ h ]} | None => ∅ end
   ∧ ∀ h, h ∈ intervals s → (h < fresh s)%nat) →
  intervals (call s c)
  = match pollingInterval (call s c) with Some h => {[ h ]} | None => ∅ end
  ∧ ∀ h, h ∈ intervals (call s c) → (h < fresh (call s c))%nat.
Proof.
  intros [Hint Hfresh]. destruct c; simpl.
  - unfold setupPollingService. destruct (pollingInterval s) as [h|] eqn:Hp; simpl.
    + rewrite Hint. split; [set_solver|]. intros h' Hh'.
      assert (h' = fresh s) as -> by set_solver. lia.
    + rewrite Hint. split; [set_solver|]. intros h' Hh'.
      assert (h' = fresh s) as -> by set_solver. lia.
  - unfold stopPollingService. destruct (pollingInterval s) as [h|] eqn:Hp; simpl.
    + rewrite Hint. split; [set_solver|]. intros h' Hh'. set_solver.
    + by rewrite Hp.
Qed.

(** X23.  Whatever sequence of [setupPollingService] and
    [stopPollingService] calls the module receives after it is loaded, the
    runtime holds at most one interval timer, the one in
    [pollingInterval]: a repeated setup clears the previous timer before
    setting the new one, and after a stop none is left.  The one-shot
    startup timers are as many as the setups: a stop clears none. *)
Theorem polling_service_has_one_timer (calls : list ServiceCall) :
  let s := foldl call service0 calls in
  intervals s = match pollingInterval s with Some h => {[ h ]} | None => ∅ end
  ∧ (size (intervals s) ≤ 1)%nat
  ∧ intervals (stopPollingService s) = ∅
  ∧ size (intervals (setupPollingService s)) = 1%nat
  ∧ timeouts s = length (filter (λ c, isSetup c) calls).
Proof.
  cbv zeta.
  assert (∀ s0,
            (intervals s0 = match pollingInterval s0 with Some h => {[ h ]} | None => ∅ end
             ∧ ∀ h, h ∈ intervals s0 → (h < fresh s0)%nat) →
            let s := foldl call s0 calls in
            (intervals s = match pollingInterval s with Some h => {[ h ]} | None => ∅ end
             ∧ ∀ h, h ∈ intervals s → (h < fresh s)%nat)
            ∧ timeouts s = (timeouts s0 + length (filter (λ c, isSetup c) calls))%nat)
    as Hrun.
  { induction calls as [|c calls IH]; intros s0 Hinv; simpl.
    - split; [done|lia].
    - destruct (IH (call s0 c) (call_keeps_single_interval s0 c Hinv)) as [Hinv' Ht].
      split; [done|]. simpl in Ht. rewrite Ht, filter_cons.
      destruct c; simpl.
      + unfold setupPollingService. simpl.
        destruct (pollingInterval s0); simpl; lia.
      + unfold stopPollingService.
        destruct (pollingInterval s0); simpl; lia. }
  destruct (Hrun service0) as [[Hint Hfresh] Ht]; [split; [done|set_solver]|].
  simpl in Ht. split_and!; try done.
  - rewrite Hint. destruct (pollingInterval _);
      [rewrite size_singleton|rewrite size_empty]; lia.
  - unfold stopPollingService.
    destruct (pollingInterval (foldl call service0 calls)) as [h|] eqn:Hp; simpl;
      rewrite Hint; set_solver.
  - assert (intervals (setupPollingService (foldl call service0 calls))
            = {[ fresh (foldl call service0 calls) ]}) as ->; [|apply size_singleton].
    unfold setupPollingService.
    destruct (pollingInterval (foldl call service0 calls)) as [h0|] eqn:Hp; simpl;
      rewrite Hint; set_solver.
Qed.
